(** * AED shock advisor: a shallow embedding of [main.cpp] and its properties

    The program reads an ECG trace from [ecg.dat] into three vectors
    ([timestamp], [datapoint], [rpeak]), asks [clean_ecg] whether the signal
    is usable, and then combines four estimators ([func_baseline],
    [func_avg_amp], [func_bpm], [func_uniformity]) with a fixed threshold rule.

    Modelling choices.
    - [double] is an interface ([Double]) with two instances: binary64
      primitive floats, the arithmetic of the program, on which every
      definition runs, and the real numbers, exact arithmetic. What a
      function returns is stated for every instance; the real numbers serve
      where exact arithmetic is what is meant (mean, median, standard
      deviation) and where no rounding decides the property.
    - [int] and [size_t] are [Z]; a trace is far shorter than 2^31 samples,
      so no counter wraps.
    - [std::vector::operator[]] out of range and division by zero are
      undefined behaviour in C++; both are results of their own ([Undefined])
      so that their absence is something a theorem can say. Where a
      platform returns inf or NaN for a division by zero and goes on, the
      model stops.
    - [operator>>] of [<fstream>], [clean_ecg] of [cleaner.h] and
      [visualize_ecg] of [visualize.h] are library code and enter as
      parameters. *)

From Stdlib Require Import String.
From Stdlib Require Import ZArith List Bool Lia Arith.
From Stdlib Require Import Reals Lra Permutation Sorted.
From Stdlib Require PrimFloat Uint63 FloatOps.
Import ListNotations.

(* ================================================================== *)
(** * Numbers *)

(** The operations [main.cpp] performs on [double] values. *)
Class Double (D : Type) : Type := {
  dadd : D -> D -> D;
  dsub : D -> D -> D;
  dmul : D -> D -> D;
  ddiv : D -> D -> D;
  dabs : D -> D;              (* std::abs(double) *)
  dsqrt : D -> D;             (* std::sqrt *)
  dltb : D -> D -> bool;      (* x < y *)
  dleb : D -> D -> bool;      (* x <= y *)
  deqb : D -> D -> bool;      (* x == y *)
  of_int : Z -> D             (* conversion int -> double *)
}.

Definition dgtb {D} `{Double D} (x y : D) : bool := dltb y x.
Definition dgeb {D} `{Double D} (x y : D) : bool := dleb y x.
Definition dneb {D} `{Double D} (x y : D) : bool := negb (deqb x y).

(** Real numbers: the idealised [double]. *)
Definition Rltb (x y : R) : bool := if Rlt_dec x y then true else false.
Definition Rleb (x y : R) : bool := if Rle_dec x y then true else false.
Definition Reqb (x y : R) : bool := if Req_dec_T x y then true else false.

#[export] Instance R_Double : Double R := {
  dadd := Rplus; dsub := Rminus; dmul := Rmult; ddiv := Rdiv;
  dabs := Rabs; dsqrt := sqrt;
  dltb := Rltb; dleb := Rleb; deqb := Reqb;
  of_int := IZR
}.

(** Binary64 floats: the machine [double]. *)
Definition float_of_Z (z : Z) : PrimFloat.float :=
  match z with
  | Z0 => PrimFloat.zero
  | Zpos _ => PrimFloat.of_uint63 (Uint63.of_Z z)
  | Zneg p => PrimFloat.opp (PrimFloat.of_uint63 (Uint63.of_Z (Zpos p)))
  end.

#[export] Instance float_Double : Double PrimFloat.float := {|
  dadd := PrimFloat.add; dsub := PrimFloat.sub;
  dmul := PrimFloat.mul; ddiv := PrimFloat.div;
  dabs := PrimFloat.abs; dsqrt := PrimFloat.sqrt;
  dltb := PrimFloat.ltb; dleb := PrimFloat.leb; deqb := PrimFloat.eqb;
  of_int := float_of_Z
|}.

(* ================================================================== *)
(** * Undefined behaviour *)

Inductive ub : Type :=
| OutOfRange      (* v[i] with i outside 0 .. v.size()-1 *)
| DivByZero.      (* x / y with y == 0 *)

Inductive result (A : Type) : Type :=
| Ok (a : A)
| Undefined (u : ub).

Arguments Ok {A} a.
Arguments Undefined {A} u.

Definition bind {A B} (c : result A) (k : A -> result B) : result B :=
  match c with
  | Ok a => k a
  | Undefined u => Undefined u
  end.

Declare Scope ub_scope.
Delimit Scope ub_scope with ub.
Notation "x <- c ;; k" := (bind c (fun x => k))
  (at level 61, c at next level, right associativity) : ub_scope.
Open Scope ub_scope.
Open Scope Z_scope.

(** [v[i]] *)
Definition vget {A} (v : list A) (i : Z) : result A :=
  if i <? 0 then Undefined OutOfRange
  else match nth_error v (Z.to_nat i) with
       | Some a => Ok a
       | None => Undefined OutOfRange
       end.

(** [v.size()] *)
Definition vsize {A} (v : list A) : Z := Z.of_nat (length v).

(** [for (i = lo; i < lo + n; i++) body], threading the loop's variables. *)
Fixpoint for_loop {S} (lo : Z) (n : nat) (body : Z -> S -> result S) (s : S)
  : result S :=
  match n with
  | O => Ok s
  | S n' => s' <- body lo s ;; for_loop (lo + 1) n' body s'
  end.

(** [for (i = lo; i < hi; i++) body] *)
Definition for_range {S} (lo hi : Z) (body : Z -> S -> result S) (s : S)
  : result S :=
  for_loop lo (Z.to_nat (hi - lo)) body s.

(* ================================================================== *)
(** * The estimators *)

Section Estimators.

Context {D : Type} `{Double D}.

Definition d0 : D := of_int 0.
Definition d1 : D := of_int 1.

(** [x / y] on doubles *)
Definition div (x y : D) : result D :=
  if deqb y d0 then Undefined DivByZero else Ok (ddiv x y).

(** ** [func_baseline] *)

(** [std::sort] in ascending order, by insertion. *)
Fixpoint insert (x : D) (l : list D) : list D :=
  match l with
  | [] => [x]
  | y :: l' => if dltb y x then y :: insert x l' else x :: l
  end.

Fixpoint sort (l : list D) : list D :=
  match l with
  | [] => []
  | x :: l' => insert x (sort l')
  end.

Definition func_baseline (datapoint : list D) : result D :=
  let datapoint := sort datapoint in
  if vsize datapoint mod 2 =? 1 then
    let n := vsize datapoint / 2 in
    vget datapoint n
  else
    let n := vsize datapoint / 2 in
    a <- vget datapoint (n - 1) ;;
    b <- vget datapoint n ;;
    div (dadd a b) (of_int 2).

(** ** [func_avg_amp] *)

Record avg_amp_vars : Type := { aa_total : D; aa_rpeak1 : Z }.

Definition avg_amp_body (datapoint : list D) (rpeak : list Z) (baseline : D)
  (i : Z) (s : avg_amp_vars) : result avg_amp_vars :=
  r <- vget rpeak i ;;
  if r =? 1 then
    y <- vget datapoint i ;;
    Ok {| aa_total := dadd (aa_total s) (dabs (dsub y baseline));
          aa_rpeak1 := aa_rpeak1 s + 1 |}
  else Ok s.

Definition avg_amp_loop (datapoint : list D) (rpeak : list Z) (baseline : D)
  : result avg_amp_vars :=
  for_range 0 (vsize rpeak) (avg_amp_body datapoint rpeak baseline)
    {| aa_total := d0; aa_rpeak1 := 0 |}.

Definition func_avg_amp (datapoint : list D) (rpeak : list Z) (baseline : D)
  : result D :=
  s <- avg_amp_loop datapoint rpeak baseline ;;
  if negb (aa_rpeak1 s =? 0) then div (aa_total s) (of_int (aa_rpeak1 s))
  else Ok d0.

(** ** [func_bpm] *)

Record bpm_vars : Type := { timebetween : D; prev : D; cnt : D }.

Definition bpm_body (timestamp : list D) (rpeak : list Z)
  (i : Z) (s : bpm_vars) : result bpm_vars :=
  r <- vget rpeak i ;;
  if r =? 1 then
    s1 <- (if dneb (prev s) (of_int (-1)) then
             t <- vget timestamp i ;;
             Ok {| timebetween := dadd (timebetween s) (dsub t (prev s));
                   prev := prev s;
                   cnt := dadd (cnt s) d1 |}
           else Ok s) ;;
    t <- vget timestamp i ;;
    Ok {| timebetween := timebetween s1; prev := t; cnt := cnt s1 |}
  else Ok s.

Definition bpm_loop (timestamp : list D) (rpeak : list Z) : result bpm_vars :=
  for_range 0 (vsize rpeak) (bpm_body timestamp rpeak)
    {| timebetween := d0; prev := of_int (-1); cnt := d0 |}.

Definition func_bpm (timestamp : list D) (rpeak : list Z) : result D :=
  s <- bpm_loop timestamp rpeak ;;
  if dltb (cnt s) (of_int 2) then Ok d0
  else
    avg <- div (timebetween s) (cnt s) ;;
    div (of_int 60) avg.

(** ** [func_uniformity] *)

Record unif_vars : Type :=
  { count : list Z; prev_peak : Z; u_rpeak1 : Z }.

(** The test inside the [j] loop: the signal crosses the baseline
    between two neighbouring samples. *)
Definition deflection (y1 y2 baseline : D) : bool :=
  (dgtb y1 baseline && dleb y2 baseline)
  || (dleb y1 baseline && dgtb y2 baseline).

Definition unif_inner (datapoint : list D) (baseline : D)
  (j : Z) (c : Z) : result Z :=
  y1 <- vget datapoint j ;;
  y2 <- vget datapoint (j + 1) ;;
  if deflection y1 y2 baseline then Ok (c + 1) else Ok c.

Definition unif_body (datapoint : list D) (rpeak : list Z) (baseline : D)
  (i : Z) (s : unif_vars) : result unif_vars :=
  r <- vget rpeak i ;;
  if r =? 1 then
    let rpeak1 := u_rpeak1 s + 1 in
    cs <- (if negb (prev_peak s =? -1) then
             c <- for_range (prev_peak s) i (unif_inner datapoint baseline) 0 ;;
             Ok (count s ++ [c])
           else Ok (count s)) ;;
    Ok {| count := cs; prev_peak := i; u_rpeak1 := rpeak1 |}
  else Ok s.

Definition unif_loop (datapoint : list D) (rpeak : list Z) (baseline : D)
  : result unif_vars :=
  for_range 0 (vsize rpeak) (unif_body datapoint rpeak baseline)
    {| count := []; prev_peak := -1; u_rpeak1 := 0 |}.

(** The standard deviation computed from [count] after the loop. *)
Definition count_sd (count : list Z) : result D :=
  let sum := fold_left (fun sum x => dadd sum (of_int x)) count d0 in
  mean <- div sum (of_int (vsize count)) ;;
  let var :=
    fold_left
      (fun var x => dadd var (dmul (dsub (of_int x) mean) (dsub (of_int x) mean)))
      count d0 in
  var <- div var (of_int (vsize count)) ;;
  Ok (dsqrt var).

Definition func_uniformity (datapoint : list D) (rpeak : list Z) (baseline : D)
  : result D :=
  s <- unif_loop datapoint rpeak baseline ;;
  if u_rpeak1 s <? 2 then Ok d0
  else count_sd (count s).

End Estimators.

(* ================================================================== *)
(** * Step 9: the shock decision *)

Section Decision.

Context {D : Type} `{Double D}.

(** The literal [0.1]: the double nearest to one tenth. *)
Definition tenth : D := ddiv (of_int 1) (of_int 10).

(** The condition of the [if] of step 9. *)
Definition do_not_shock (baseline avg_amp bpm uniformity : D) : bool :=
  dltb avg_amp tenth
  || dgtb baseline (of_int 1)
  || (dgeb uniformity (of_int 1) && dltb bpm (of_int 200))
  || dleb bpm (of_int 150).

Definition shock_decision (baseline avg_amp bpm uniformity : D) : string :=
  if do_not_shock baseline avg_amp bpm uniformity
  then "NO, DO NOT SHOCK"%string
  else "YES, SHOCK!"%string.

(** The string of step 8. *)
Definition organized (uniformity : D) : string :=
  if dltb uniformity (of_int 1) then "YES"%string else "NO"%string.

End Decision.

(* ================================================================== *)
(** * Step 2: reading [ecg.dat] *)

(** An open input stream: what [file >> x] does for a [double] and for an
    [int]. [None] is a set failbit. An extraction that succeeds takes at
    least one character from the file. *)
Class Istream (F D : Type) : Type := {
  extract_double : F -> option (D * F);
  extract_int : F -> option (Z * F);
  remaining : F -> nat;
  extract_double_consumes : forall f x f',
    extract_double f = Some (x, f') -> (remaining f' < remaining f)%nat;
  extract_int_consumes : forall f z f',
    extract_int f = Some (z, f') -> (remaining f' < remaining f)%nat
}.

(** The three vectors of [main]. *)
Record vectors (D : Type) : Type := {
  timestamp : list D;
  datapoint : list D;
  rpeak : list Z
}.

Arguments timestamp {D} v.
Arguments datapoint {D} v.
Arguments rpeak {D} v.

Section Loader.

Context {F D : Type} `{Istream F D}.

(** The [while (true)] loop; [fuel] bounds the number of records. *)
Fixpoint load_loop (fuel : nat) (file : F) (v : vectors D)
  : option (vectors D) :=
  match fuel with
  | O => None
  | S fuel' =>
    match extract_double file with
    | None => Some v
    | Some (x, file1) =>
      match extract_double file1 with
      | None => Some v
      | Some (y, file2) =>
        let v1 := {| timestamp := timestamp v ++ [x];
                     datapoint := datapoint v ++ [y];
                     rpeak := rpeak v |} in
        match extract_int file2 with
        | None => Some v1
        | Some (z, file3) =>
          load_loop fuel' file3
            {| timestamp := timestamp v1;
               datapoint := datapoint v1;
               rpeak := rpeak v1 ++ [z] |}
        end
      end
    end
  end.

Definition no_vectors : vectors D :=
  {| timestamp := []; datapoint := []; rpeak := [] |}.

(** Every record takes characters from the file, so the length of the file
    is fuel enough ([load_loop_enough] below). *)
Definition load (file : F) : vectors D :=
  match load_loop (S (remaining file)) file no_vectors with
  | Some v => v
  | None => no_vectors
  end.

End Loader.

(* ================================================================== *)
(** * [main] *)

(** What the program does to the outside: lines on [std::cout] and calls. *)
Inductive piece (D : Type) : Type :=
| Str (s : string)
| Num (d : D).

Arguments Str {D} s.
Arguments Num {D} d.

Inductive callee : Type :=
| Clean_ecg | Visualize_ecg
| Func_baseline | Func_avg_amp | Func_bpm | Func_uniformity.

Inductive event (D : Type) : Type :=
| Cout (line : list (piece D))   (* cout << ... << endl *)
| Call (f : callee).

Arguments Cout {D} line.
Arguments Call {D} f.

(** A run: the events so far, unless the behaviour is undefined. *)
Definition io (D A : Type) : Type := list (event D) -> result (A * list (event D)).

Definition io_ret {D A} (a : A) : io D A := fun log => Ok (a, log).

Definition io_bind {D A B} (c : io D A) (k : A -> io D B) : io D B :=
  fun log =>
    match c log with
    | Ok (a, log') => k a log'
    | Undefined u => Undefined u
    end.

Definition emit {D} (e : event D) : io D unit := fun log => Ok (tt, log ++ [e]).

Definition cout {D} (line : list (piece D)) : io D unit := emit (Cout line).

(** A call of [f] that computes [c]. *)
Definition call {D A} (f : callee) (c : result A) : io D A :=
  fun log =>
    match c with
    | Ok a => Ok (a, log ++ [Call f])
    | Undefined u => Undefined u
    end.

Declare Scope io_scope.
Delimit Scope io_scope with io.
Notation "x <- c ;; k" := (io_bind c (fun x => k))
  (at level 61, c at next level, right associativity) : io_scope.
Notation "c ;; k" := (io_bind c (fun _ => k))
  (at level 61, right associativity) : io_scope.

Section Main.

Context {F D : Type} `{Double D} `{Istream F D}.

(** [clean_ecg] of [cleaner.h]. *)
Variable clean_ecg : list D -> bool.

(** [main] after the file is read: steps 3 to 9. *)
Definition analyse (v : vectors D) : io D Z :=
  (is_clean <- call Clean_ecg (Ok (clean_ecg (datapoint v))) ;;
   if is_clean : bool then
     cout [Str "Is signal clean? YES"] ;;
     call Visualize_ecg (Ok tt) ;;
     baseline <- call Func_baseline (func_baseline (datapoint v)) ;;
     cout [Str "Baseline? "; Num baseline] ;;
     avg_amp <- call Func_avg_amp
                  (func_avg_amp (datapoint v) (rpeak v) baseline) ;;
     cout [Str "Average amplitude? "; Num avg_amp] ;;
     bpm <- call Func_bpm (func_bpm (timestamp v) (rpeak v)) ;;
     cout [Str "BPM? "; Num bpm] ;;
     uniformity <- call Func_uniformity
                     (func_uniformity (datapoint v) (rpeak v) baseline) ;;
     cout [Str "Organized? "; Str (organized uniformity);
           Str " ("; Num uniformity; Str ")"] ;;
     cout [Str "Shock patient? ";
           Str (shock_decision baseline avg_amp bpm uniformity)] ;;
     cout [] ;;
     cout [Str "** Done **"] ;;
     io_ret 0
   else
     cout [Str "Is signal clean? NO, DO NOT SHOCK"] ;;
     cout [] ;;
     cout [Str "** Done **"] ;;
     io_ret 0)%io.

(** [ecg_dat] is [None] when [ecg.dat] cannot be opened. *)
Definition main (ecg_dat : option F) : io D Z :=
  (cout [Str "** Starting AED Software **"] ;;
   cout [] ;;
   match ecg_dat with
   | None =>
     cout [Str "ERROR: input file not found"] ;;
     io_ret 0
   | Some file => analyse (load file)
   end)%io.

(** The events of a whole run. *)
Definition run (ecg_dat : option F) : result (list (event D)) :=
  match main ecg_dat [] with
  | Ok (_, log) => Ok log
  | Undefined u => Undefined u
  end.

End Main.

(* ================================================================== *)
(** * The events of a run *)

Section Reports.

Context {D : Type} `{Double D}.

(** The events of a clean trace on which the four estimators are defined. *)
Definition clean_report (baseline avg_amp bpm uniformity : D)
  : list (event D) :=
  [ Call Clean_ecg;
    Cout [Str "Is signal clean? YES"];
    Call Visualize_ecg;
    Call Func_baseline;
    Cout [Str "Baseline? "; Num baseline];
    Call Func_avg_amp;
    Cout [Str "Average amplitude? "; Num avg_amp];
    Call Func_bpm;
    Cout [Str "BPM? "; Num bpm];
    Call Func_uniformity;
    Cout [Str "Organized? "; Str (organized uniformity);
          Str " ("; Num uniformity; Str ")"];
    Cout [Str "Shock patient? ";
          Str (shock_decision baseline avg_amp bpm uniformity)];
    Cout [];
    Cout [Str "** Done **"] ].

(** The events of a trace that is not clean. *)
Definition not_clean_report : list (event D) :=
  [ Call Clean_ecg;
    Cout [Str "Is signal clean? NO, DO NOT SHOCK"];
    Cout [];
    Cout [Str "** Done **"] ].

Definition banner : list (event D) :=
  [ Cout [Str "** Starting AED Software **"]; Cout [] ].

End Reports.

(* ================================================================== *)
(** * A file as a list of fields *)

(** Fields separated by white space. [FInt] is an integer literal, which
    reads as an [int] and as a [double]; [FReal] is a field that reads as a
    [double] only; [FOther] reads as neither. *)
Inductive field (D : Type) : Type :=
| FInt (z : Z)
| FReal (d : D)
| FOther.

Arguments FInt {D} z.
Arguments FReal {D} d.
Arguments FOther {D}.

Section Fields.

Context {D : Type} `{Double D}.

Definition fields_double (f : list (field D)) : option (D * list (field D)) :=
  match f with
  | FInt z :: f' => Some (of_int z, f')
  | FReal d :: f' => Some (d, f')
  | _ => None
  end.

Definition fields_int (f : list (field D)) : option (Z * list (field D)) :=
  match f with
  | FInt z :: f' => Some (z, f')
  | _ => None
  end.

#[export] Instance fields_Istream : Istream (list (field D)) D.
Proof.
  refine {| extract_double := fields_double;
            extract_int := fields_int;
            remaining := @length (field D) |}.
  - intros [|[z|d|] f0] x f'; simpl; intros E; inversion E; subst; lia.
  - intros [|[z0|d|] f0] z f'; simpl; intros E; inversion E; subst; lia.
Defined.

End Fields.

(* ================================================================== *)
(** * What the estimators are meant to compute *)

(** The values of [v] at the indices where [rpeak] is 1. *)
Fixpoint at_peaks {A} (v : list A) (rpeak : list Z) : list A :=
  match v, rpeak with
  | x :: v', r :: rpeak' =>
    if r =? 1 then x :: at_peaks v' rpeak' else at_peaks v' rpeak'
  | _, _ => []
  end.

(** The indices where [rpeak] is 1, counted from [i]. *)
Fixpoint peaks_from (i : nat) (rpeak : list Z) : list nat :=
  match rpeak with
  | [] => []
  | r :: rpeak' =>
    if r =? 1 then i :: peaks_from (S i) rpeak' else peaks_from (S i) rpeak'
  end.

Definition peak_indices (rpeak : list Z) : list nat := peaks_from 0 rpeak.

(** Neighbours in a list: [(l0,l1); (l1,l2); ...]. *)
Fixpoint consecutive {A} (l : list A) : list (A * A) :=
  match l with
  | a :: (b :: _) as l' => (a, b) :: consecutive l'
  | _ => []
  end.

Definition Rsum (l : list R) : R := fold_right Rplus 0%R l.

Definition mean (l : list R) : R := (Rsum l / INR (length l))%R.

(** Median of a list that is already in ascending order. *)
Definition median_sorted (s : list R) : R :=
  let n := length s in
  if Nat.odd n then nth (n / 2) s 0%R
  else ((nth (n / 2 - 1) s 0 + nth (n / 2) s 0) / 2)%R.

(** Population standard deviation: the squared deviations are divided by
    the number of values. *)
Definition pop_sd (l : list R) : R :=
  sqrt (Rsum (map (fun x => (x - mean l) * (x - mean l)) l) / INR (length l))%R.

(** The inter-peak intervals that [func_bpm] adds up: those that do not
    start at a time stamp equal to -1. *)
Definition starts_at_sentinel (p : R * R) : bool := Reqb (fst p) (-1).

Definition included_intervals (peak_times : list R) : list (R * R) :=
  filter (fun p => negb (starts_at_sentinel p)) (consecutive peak_times).

Definition interval (p : R * R) : R := (snd p - fst p)%R.

(** Number of baseline crossings between the neighbouring samples
    [(j, j+1)] for [prev <= j < curr]. *)
Definition crossings {D} `{Double D} (datapoint : list D) (baseline : D)
  (w : nat * nat) : Z :=
  let '(prev, curr) := w in
  Z.of_nat
    (length
       (filter
          (fun j => deflection (nth j datapoint d0) (nth (S j) datapoint d0)
                      baseline)
          (seq prev (curr - prev)))).

Definition deflection_counts {D} `{Double D} (datapoint : list D)
  (rpeak : list Z) (baseline : D) : list Z :=
  map (crossings datapoint baseline) (consecutive (peak_indices rpeak)).

(** The sum [total += x] takes over a list, from 0.0 and in list order. *)
Definition dsum {D} `{Double D} (l : list D) : D := fold_left dadd l d0.

(** The variables of [func_bpm] after the flagged time stamps
    [peak_times]. *)
Definition bpm_vars_after (peak_times : list R) : bpm_vars :=
  {| timebetween := Rsum (map interval (included_intervals peak_times));
     prev := last peak_times (-1)%R;
     cnt := IZR (Z.of_nat (length (included_intervals peak_times))) |}.

(** [prev_peak] after the flagged indices [indices]. *)
Definition last_peak (indices : list nat) : Z :=
  last (map Z.of_nat indices) (-1).

(** The variables of [func_uniformity] after the flagged indices
    [indices]. *)
Definition unif_vars_after {D} `{Double D} (datapoint : list D) (baseline : D)
  (indices : list nat) : unif_vars :=
  {| count := map (crossings datapoint baseline) (consecutive indices);
     prev_peak := last_peak indices;
     u_rpeak1 := Z.of_nat (length indices) |}.

(** The shape in which [load] leaves the vectors. *)
Definition loaded_shape {D} (v : vectors D) : Prop :=
  length (timestamp v) = length (datapoint v) /\
  (length (datapoint v) = length (rpeak v) \/
   length (datapoint v) = S (length (rpeak v))).

(** At the head of the loop of [load] the three vectors are aligned. *)
Definition aligned {D} (v : vectors D) : Prop :=
  length (timestamp v) = length (datapoint v) /\
  length (datapoint v) = length (rpeak v).

(** Scenario A. *)
Definition scenario_timestamp : list R := map IZR [0;1;2;3;4;5;6;7;8;9].
Definition scenario_datapoint : list R := map IZR [0;2;0;2;0;2;0;2;0;2].
Definition scenario_rpeak : list Z := [1;0;1;0;1;0;1;0;1;0].
Definition scenario : vectors R :=
  {| timestamp := scenario_timestamp;
     datapoint := scenario_datapoint;
     rpeak := scenario_rpeak |}.

(** [ecg.dat] for scenario A: one record of three fields for each sample. *)
Definition record_fields {D} (t y z : Z) : list (field D) :=
  [FInt t; FInt y; FInt z].

Definition scenario_file {D} : list (field D) :=
  record_fields 0 0 1 ++ record_fields 1 2 0 ++
  record_fields 2 0 1 ++ record_fields 3 2 0 ++
  record_fields 4 0 1 ++ record_fields 5 2 0 ++
  record_fields 6 0 1 ++ record_fields 7 2 0 ++
  record_fields 8 0 1 ++ record_fields 9 2 0.

(* ================================================================== *)
(** * Records of a file and calls of a run *)

(** A record of [ecg.dat]: time stamp, amplitude, flag. *)
Definition record (D : Type) : Type := (D * D * Z)%type.

(** The vectors after [records] have been pushed onto [v]. *)
Definition push_records {D} (v : vectors D) (records : list (record D))
  : vectors D :=
  {| timestamp := timestamp v ++ map (fun r => fst (fst r)) records;
     datapoint := datapoint v ++ map (fun r => snd (fst r)) records;
     rpeak := rpeak v ++ map snd records |}.

Definition vectors_of {D} (records : list (record D)) : vectors D :=
  {| timestamp := map (fun r => fst (fst r)) records;
     datapoint := map (fun r => snd (fst r)) records;
     rpeak := map snd records |}.

Section Records.

Context {F D : Type} `{Istream F D}.

(** [holds_records file records rest]: three extractions in a row succeed
    for each of [records], starting at [file], and leave the stream at
    [rest]. *)
Inductive holds_records : F -> list (record D) -> F -> Prop :=
| holds_none (file : F) : holds_records file [] file
| holds_record (file file1 file2 file3 rest : F) (x y : D) (z : Z)
    (records : list (record D)) :
    extract_double file = Some (x, file1) ->
    extract_double file1 = Some (y, file2) ->
    extract_int file2 = Some (z, file3) ->
    holds_records file3 records rest ->
    holds_records file ((x, y, z) :: records) rest.

(** The stream fails before a record's amplitude is read: at its time
    stamp, or at the amplitude after a time stamp. *)
Definition fails_before_amplitude (rest : F) : Prop :=
  extract_double rest = None \/
  exists x rest', extract_double rest = Some (x, rest') /\
                  extract_double rest' = None.

End Records.

(** The calls of a log, in order. *)
Definition calls {D} (log : list (event D)) : list callee :=
  flat_map (fun e => match e with Call f => [f] | Cout _ => [] end) log.

Definition all_calls : list callee :=
  [Clean_ecg; Visualize_ecg; Func_baseline; Func_avg_amp; Func_bpm;
   Func_uniformity].

(** The line that advises against a shock. *)
Definition no_shock_line {D} : event D :=
  Cout [Str "Shock patient? "; Str "NO, DO NOT SHOCK"].

(** A fast, regular trace: peaks a quarter of a second apart. *)
Definition fast_records : list (record R) :=
  [ (0%R, 1%R, 1); ((1/8)%R, 0%R, 0); ((2/8)%R, 1%R, 1); ((3/8)%R, 0%R, 0);
    ((4/8)%R, 1%R, 1); ((5/8)%R, 0%R, 0); ((6/8)%R, 0%R, 0) ].

Definition fast_file : list (field R) :=
  flat_map (fun r : record R =>
              [FReal (fst (fst r)); FReal (snd (fst r)); FInt (snd r)])
           fast_records.

(* ================================================================== *)
(** * Order of the amplitudes, and binary64 data *)

Section Order.

Context {D : Type} `{Double D}.

(** [x <= y] holds. *)
Definition dle (x y : D) : Prop := dleb x y = true.

(** On the values of [l], [<] and [<=] order as they do on numbers: what
    is not above is at or below, what is below is at or below, and [<=] is
    transitive. A NaN among the values breaks the first. *)
Definition ordered_on (l : list D) : Prop :=
  (forall x y, In x l -> In y l -> dltb y x = false -> dle x y) /\
  (forall x y, In x l -> In y l -> dltb y x = true -> dle y x) /\
  (forall x y z, In x l -> In y l -> In z l -> dle x y -> dle y z -> dle x z).

(** No two different values of [l] compare equal. In binary64, -0.0 beside
    +0.0 breaks it. *)
Definition distinct_on (l : list D) : Prop :=
  forall x y, In x l -> In y l -> dle x y -> dle y x -> x = y.

(** The double midpoint of two ordered values of [l] lies between them.
    In binary64 a sum that overflows breaks it. *)
Definition midpoints_between (l : list D) : Prop :=
  forall a b, In a l -> In b l -> dle a b ->
    dle a (ddiv (dadd a b) (of_int 2)) /\ dle (ddiv (dadd a b) (of_int 2)) b.

(** The value [func_baseline] takes from the sorted vector [s]. *)
Definition middle (s : list D) : result D :=
  let n := length s in
  if Nat.odd n then Ok (nth (n / 2) s d0)
  else div (dadd (nth (n / 2 - 1) s d0) (nth (n / 2) s d0)) (of_int 2).

End Order.

(** The double 0.1. *)
Definition float_tenth : PrimFloat.float := tenth.

(** The double 2^1023, the text 8.98846567431158e307 of a file. *)
Definition float_huge : PrimFloat.float :=
  FloatOps.Z.ldexp PrimFloat.one 1023.




(* ================================================================== *)
(** * General facts *)

Lemma vget_nth_error {A} (v : list A) (k : nat) a :
  nth_error v k = Some a -> vget v (Z.of_nat k) = Ok a.
Proof.
  intros E. unfold vget.
  destruct (Z.ltb_spec (Z.of_nat k) 0); [lia|].
  now rewrite Nat2Z.id, E.
Qed.

(** A loop that keeps an invariant runs to its end. *)
Lemma for_loop_inv {S} (P : nat -> S -> Prop) (body : Z -> S -> result S) :
  forall n lo s0,
    P O s0 ->
    (forall k s, (k < n)%nat -> P k s ->
       exists s', body (lo + Z.of_nat k) s = Ok s' /\ P (Datatypes.S k) s') ->
    exists s', for_loop lo n body s0 = Ok s' /\ P n s'.
Proof.
  intros n; revert P.
  induction n as [|n IH]; intros P lo s0 H0 Hstep; simpl.
  - eauto.
  - destruct (Hstep O s0) as (s1 & E1 & P1); [lia|assumption|].
    rewrite Z.add_0_r in E1. rewrite E1; simpl.
    apply (IH (fun k s => P (Datatypes.S k) s)); [assumption|].
    intros k s Hk Pk.
    destruct (Hstep (Datatypes.S k) s) as (s' & E & P'); [lia|assumption|].
    exists s'; split; [|assumption].
    rewrite <- E; f_equal; lia.
Qed.

Lemma firstn_snoc {A} (l : list A) k a :
  nth_error l k = Some a -> firstn (S k) l = firstn k l ++ [a].
Proof.
  revert k; induction l as [|x l IH]; intros [|k]; simpl; try discriminate.
  - now intros [= ->].
  - intros E; now rewrite <- IH.
Qed.

(* ================================================================== *)
(** * Step 9 *)

Section DecisionFacts.

Context {D : Type} `{Double D}.



End DecisionFacts.

(* ================================================================== *)
(** * Step 2 *)

Section LoaderFacts.

Context {F D : Type} `{Istream F D}.

Lemma aligned_shape (v : vectors D) : aligned v -> loaded_shape v.
Proof. unfold aligned, loaded_shape; tauto. Qed.

Lemma load_loop_enough :
  forall fuel file v,
    (remaining file < fuel)%nat -> aligned v ->
    exists v', load_loop fuel file v = Some v' /\ loaded_shape v'.
Proof.
  induction fuel as [|fuel IH]; intros file v Hfuel Hv; [lia|].
  simpl.
  destruct (extract_double file) as [[x file1]|] eqn:Ex;
    [|eauto using aligned_shape].
  destruct (extract_double file1) as [[y file2]|] eqn:Ey;
    [|eauto using aligned_shape].
  apply extract_double_consumes in Ex, Ey.
  destruct Hv as [Hts Hdp].
  destruct (extract_int file2) as [[z file3]|] eqn:Ez.
  - apply extract_int_consumes in Ez.
    apply IH; [lia|].
    unfold aligned; simpl. rewrite !length_app; simpl. lia.
  - eexists; split; [reflexivity|].
    unfold loaded_shape; simpl. rewrite !length_app; simpl. lia.
Qed.

Lemma load_loop_more_fuel :
  forall fuel file v v',
    load_loop fuel file v = Some v' ->
    forall fuel', (fuel <= fuel')%nat -> load_loop fuel' file v = Some v'.
Proof.
  induction fuel as [|fuel IH]; intros file v v' E fuel' Hle; [discriminate|].
  destruct fuel' as [|fuel']; [lia|].
  simpl in *.
  destruct (extract_double file) as [[x file1]|]; [|assumption].
  destruct (extract_double file1) as [[y file2]|]; [|assumption].
  destruct (extract_int file2) as [[z file3]|]; [|assumption].
  apply (IH _ _ _ E); lia.
Qed.

(** [load] is the result of the loop for every amount of fuel above the
    length of the file: the loop ends by itself. *)
Lemma load_terminates (file : F) :
  forall fuel, (remaining file < fuel)%nat ->
    load_loop fuel file no_vectors = Some (load file).
Proof.
  intros fuel Hfuel. unfold load.
  destruct (load_loop_enough (S (remaining file)) file no_vectors)
    as (v' & E & _); [lia|split; reflexivity|].
  rewrite E. apply (load_loop_more_fuel _ _ _ _ E). lia.
Qed.

Lemma load_shape (file : F) : loaded_shape (load file).
Proof.
  unfold load.
  destruct (load_loop_enough (S (remaining file)) file no_vectors)
    as (v' & E & Hv'); [lia|split; reflexivity|].
  now rewrite E.
Qed.

End LoaderFacts.

(** C3. Failing input: a file that holds the two fields [0 1] and ends
    before the flag. The loop has pushed the time stamp and the amplitude
    when the extraction of the flag fails, so the vectors have lengths
    1, 1 and 0. *)
Theorem load_record_without_flag :
  let v := load (D := R) [FInt 0; FInt 1] in
  timestamp v = [0%R] /\ datapoint v = [1%R] /\ rpeak v = [] /\
  length (datapoint v) <> length (rpeak v).
Proof.
  cbv [load load_loop remaining extract_double extract_int fields_Istream
       fields_double fields_int length no_vectors timestamp datapoint rpeak
       app of_int R_Double].
  repeat split; discriminate.
Qed.

(* ================================================================== *)
(** * The flow of [main] *)

Section MainFacts.

Context {F D : Type} `{Double D} `{Istream F D}.

Variable clean_ecg : list D -> bool.

Lemma analyse_clean (v : vectors D) baseline avg_amp bpm uniformity log :
  clean_ecg (datapoint v) = true ->
  func_baseline (datapoint v) = Ok baseline ->
  func_avg_amp (datapoint v) (rpeak v) baseline = Ok avg_amp ->
  func_bpm (timestamp v) (rpeak v) = Ok bpm ->
  func_uniformity (datapoint v) (rpeak v) baseline = Ok uniformity ->
  analyse clean_ecg v log
  = Ok (0, log ++ clean_report baseline avg_amp bpm uniformity).
Proof.
  intros Hc Hb Ha Hr Hu.
  unfold analyse, io_bind, call, cout, emit, io_ret.
  rewrite Hc, Hb, Ha, Hr, Hu.
  unfold clean_report. repeat rewrite <- app_assoc. reflexivity.
Qed.

Lemma analyse_not_clean (v : vectors D) log :
  clean_ecg (datapoint v) = false ->
  analyse clean_ecg v log = Ok (0, log ++ not_clean_report).
Proof.
  intros Hc.
  unfold analyse, io_bind, call, cout, emit, io_ret.
  rewrite Hc.
  unfold not_clean_report. repeat rewrite <- app_assoc. reflexivity.
Qed.

(** C7. When [clean_ecg] answers false on the loaded amplitudes, the run is
    defined and consists of the banner, the call of [clean_ecg], the line
    "Is signal clean? NO, DO NOT SHOCK", an empty line and "** Done **":
    the only call is the one of [clean_ecg]; neither [visualize_ecg] nor any
    of the four estimators is called. *)
Theorem not_clean_halts (file : F) :
  clean_ecg (datapoint (load file)) = false ->
  run clean_ecg (Some file) = Ok (@banner D ++ not_clean_report) /\
  In (Cout [Str "Is signal clean? NO, DO NOT SHOCK"])
     (@banner D ++ not_clean_report) /\
  (forall f, In (Call f) (@banner D ++ not_clean_report) -> f = Clean_ecg).
Proof.
  intros Hc. split; [|split].
  - unfold run, main, io_bind, cout, emit.
    rewrite (analyse_not_clean _ _ Hc). reflexivity.
  - simpl; tauto.
  - intros f Hin. simpl in Hin.
    repeat (destruct Hin as [Hin|Hin]; [try discriminate|]);
      try contradiction.
    now injection Hin as <-.
Qed.

End MainFacts.

(** A file with no record, and a gate that rejects every signal. *)
Lemma not_clean_halts_witness :
  run (D := R) (fun _ => false) (Some (@nil (field R)))
  = Ok (banner ++ not_clean_report).
Proof.
  apply (not_clean_halts (D := R) (fun _ => false) (@nil (field R))).
  reflexivity.
Defined.

(* ================================================================== *)
(** * Real arithmetic *)

Lemma Rltb_true x y : (x < y)%R -> Rltb x y = true.
Proof. unfold Rltb; destruct (Rlt_dec x y); tauto. Qed.

Lemma Rltb_false x y : (y <= x)%R -> Rltb x y = false.
Proof. unfold Rltb; destruct (Rlt_dec x y); [lra|reflexivity]. Qed.

Lemma Rleb_true x y : (x <= y)%R -> Rleb x y = true.
Proof. unfold Rleb; destruct (Rle_dec x y); tauto. Qed.

Lemma Rleb_false x y : (y < x)%R -> Rleb x y = false.
Proof. unfold Rleb; destruct (Rle_dec x y); [lra|reflexivity]. Qed.

Lemma Reqb_true x y : x = y -> Reqb x y = true.
Proof. unfold Reqb; destruct (Req_dec_T x y); tauto. Qed.

Lemma Reqb_false x y : x <> y -> Reqb x y = false.
Proof. unfold Reqb; destruct (Req_dec_T x y); tauto. Qed.

Lemma Rltb_iff x y : Rltb x y = true <-> (x < y)%R.
Proof. unfold Rltb; destruct (Rlt_dec x y); split; auto; discriminate. Qed.

Lemma Rleb_iff x y : Rleb x y = true <-> (x <= y)%R.
Proof. unfold Rleb; destruct (Rle_dec x y); split; auto; discriminate. Qed.


(** Decide the comparisons of known numbers that stand in the goal. *)
Ltac Rcompare :=
  repeat match goal with
  | |- context [Rltb ?x ?y] =>
    first [ rewrite (Rltb_true x y) by lra | rewrite (Rltb_false x y) by lra ]
  | |- context [Rleb ?x ?y] =>
    first [ rewrite (Rleb_true x y) by lra | rewrite (Rleb_false x y) by lra ]
  | |- context [Reqb ?x ?y] =>
    first [ rewrite (Reqb_true x y) by lra | rewrite (Reqb_false x y) by lra ]
  end.

(** Run a definition on known real numbers. *)
Ltac Rrun :=
  repeat (cbv -[Rplus Rminus Rmult Rdiv Rinv Ropp Rabs sqrt Rltb Rleb Reqb IZR];
          Rcompare).

Lemma div_R x y : y <> 0%R -> div x y = Ok (x / y)%R.
Proof. intros Hy. unfold div, d0; simpl. now rewrite (Reqb_false _ _ Hy). Qed.

Lemma Rsum_app l1 l2 : Rsum (l1 ++ l2) = (Rsum l1 + Rsum l2)%R.
Proof.
  unfold Rsum. induction l1 as [|x l1 IH]; simpl; [lra|]. rewrite IH; lra.
Qed.

Lemma IZR_of_nat_neq_0 n : n <> O -> IZR (Z.of_nat n) <> 0%R.
Proof. intros Hn. apply not_0_IZR. lia. Qed.

(* ================================================================== *)
(** * Peaks *)

Lemma nth_error_lt {A} (l : list A) k :
  (k < length l)%nat -> exists a, nth_error l k = Some a.
Proof.
  intros Hk. destruct (nth_error l k) eqn:E; [eauto|].
  apply nth_error_None in E. lia.
Qed.

Lemma at_peaks_snoc {A} (v : list A) rpeak y r :
  length v = length rpeak ->
  at_peaks (v ++ [y]) (rpeak ++ [r])
  = at_peaks v rpeak ++ (if r =? 1 then [y] else []).
Proof.
  revert rpeak; induction v as [|x v IH]; intros [|r0 rpeak]; simpl;
    try discriminate.
  - destruct (r =? 1); reflexivity.
  - intros [= E]. rewrite (IH _ E). now destruct (r0 =? 1).
Qed.

Lemma at_peaks_firstn {A} (v : list A) rpeak :
  at_peaks (firstn (length rpeak) v) rpeak = at_peaks v rpeak.
Proof.
  revert v; induction rpeak as [|r rpeak IH]; intros [|x v]; simpl; trivial.
  rewrite IH. reflexivity.
Qed.

Lemma at_peaks_no_flag {A} (v : list A) rpeak :
  Forall (fun r => r <> 1) rpeak -> at_peaks v rpeak = [].
Proof.
  intros Hno; revert v. induction Hno as [|r rpeak Hr _ IH]; intros [|x v];
    simpl; trivial.
  destruct (Z.eqb_spec r 1); [contradiction|apply IH].
Qed.

Lemma firstn_prefix_lengths {A} (v : list A) (rpeak : list Z) k :
  (k < length rpeak)%nat -> (length rpeak <= length v)%nat ->
  length (firstn k v) = length (firstn k rpeak).
Proof. intros. rewrite !length_firstn. lia. Qed.

Lemma peaks_from_snoc (rpeak : list Z) (r : Z) (i : nat) :
  peaks_from i (rpeak ++ [r])
  = peaks_from i rpeak ++ (if r =? 1 then [(i + length rpeak)%nat] else []).
Proof.
  revert i; induction rpeak as [|r0 rpeak IH]; intros i; simpl.
  - rewrite Nat.add_0_r. now destruct (r =? 1).
  - rewrite IH, Nat.add_succ_r. now destruct (r0 =? 1).
Qed.

Lemma peak_indices_snoc (rpeak : list Z) (r : Z) :
  peak_indices (rpeak ++ [r])
  = peak_indices rpeak ++ (if r =? 1 then [length rpeak] else []).
Proof. unfold peak_indices. now rewrite peaks_from_snoc. Qed.

Lemma peaks_from_range (rpeak : list Z) (i : nat) :
  Forall (fun p => (i <= p < i + length rpeak)%nat) (peaks_from i rpeak).
Proof.
  revert i; induction rpeak as [|r rpeak IH]; intros i; simpl; [constructor|].
  assert (Htail : Forall (fun p => (i <= p < i + S (length rpeak))%nat)
                         (peaks_from (S i) rpeak)).
  { eapply Forall_impl; [|apply IH]. simpl; intros; lia. }
  destruct (r =? 1); [constructor; [lia|]|]; assumption.
Qed.

(** An index is in [peak_indices] exactly when its flag is 1. *)
Lemma peaks_from_In (rpeak : list Z) (i p : nat) :
  In p (peaks_from i rpeak)
  <-> (i <= p)%nat /\ nth_error rpeak (p - i) = Some 1.
Proof.
  revert i; induction rpeak as [|r rpeak IH]; intros i; simpl.
  - split; [tauto|]. intros [_ E]. now destruct (p - i)%nat.
  - assert (Hrec : In p (peaks_from (S i) rpeak)
                   <-> (i < p)%nat /\ nth_error (r :: rpeak) (p - i) = Some 1).
    { rewrite IH. split; intros [Hp E]; (split; [lia|]).
      - replace (p - i)%nat with (S (p - S i)) by lia. exact E.
      - replace (p - i)%nat with (S (p - S i)) in E by lia. exact E. }
    destruct (Z.eqb_spec r 1) as [->|Hr]; simpl; rewrite Hrec.
    + split.
      * intros [<-|[Hp E]]; [|split; [lia|exact E]].
        rewrite Nat.sub_diag. split; [lia|reflexivity].
      * intros [Hp E]. destruct (Nat.eq_dec i p); [tauto|].
        right; split; [lia|exact E].
    + split; intros [Hp E]; (split; [|exact E]); [lia|].
      destruct (Nat.eq_dec i p) as [<-|]; [|lia].
      rewrite Nat.sub_diag in E. simpl in E. congruence.
Qed.

Lemma peak_indices_In (rpeak : list Z) (p : nat) :
  In p (peak_indices rpeak) <-> nth_error rpeak p = Some 1.
Proof.
  unfold peak_indices. rewrite peaks_from_In, Nat.sub_0_r.
  split; [tauto|]. split; [lia|assumption].
Qed.

Lemma at_peaks_peaks_from {A} (v : list A) (rpeak : list Z) (d : A) (i : nat) :
  (length rpeak <= length v)%nat ->
  at_peaks v rpeak = map (fun p => nth (p - i) v d) (peaks_from i rpeak).
Proof.
  revert v i; induction rpeak as [|r rpeak IH]; intros [|x v] i Hlen;
    simpl in *; trivial; [lia|].
  assert (Htail : at_peaks v rpeak
                  = map (fun p => nth (p - i) (x :: v) d)
                        (peaks_from (S i) rpeak)).
  { rewrite (IH v (S i)) by lia.
    apply map_ext_in. intros p Hp.
    pose proof (peaks_from_range rpeak (S i)) as Hr.
    rewrite Forall_forall in Hr. specialize (Hr p Hp).
    replace (p - i)%nat with (S (p - S i)) by lia. reflexivity. }
  destruct (r =? 1); simpl; [rewrite Nat.sub_diag|]; now rewrite Htail.
Qed.

(** The flagged values are the values at the flagged indices. *)
Lemma at_peaks_peak_indices {A} (v : list A) (rpeak : list Z) (d : A) :
  (length rpeak <= length v)%nat ->
  at_peaks v rpeak = map (fun p => nth p v d) (peak_indices rpeak).
Proof.
  intros Hlen. rewrite (at_peaks_peaks_from v rpeak d 0 Hlen).
  apply map_ext. intros p. now rewrite Nat.sub_0_r.
Qed.

Lemma peak_indices_increasing (rpeak : list Z) :
  StronglySorted lt (peak_indices rpeak).
Proof.
  unfold peak_indices. generalize O.
  induction rpeak as [|r rpeak IH]; intros i; simpl; [constructor|].
  destruct (r =? 1); [|apply IH].
  constructor; [apply IH|].
  eapply Forall_impl; [|apply (peaks_from_range rpeak (S i))].
  simpl; intros; lia.
Qed.

(* ================================================================== *)
(** * [func_avg_amp] *)

Section AvgAmp.

Variables (datapoint : list R) (rpeak : list Z) (baseline : R).

Hypothesis rpeak_fits : (length rpeak <= length datapoint)%nat.

Let deviation (y : R) : R := Rabs (y - baseline).

Lemma avg_amp_loop_spec :
  avg_amp_loop datapoint rpeak baseline
  = Ok {| aa_total := Rsum (map deviation (at_peaks datapoint rpeak));
          aa_rpeak1 := Z.of_nat (length (at_peaks datapoint rpeak)) |}.
Proof.
  unfold avg_amp_loop, for_range, vsize. rewrite Z.sub_0_r, Nat2Z.id.
  destruct (for_loop_inv
    (fun k s =>
       s = {| aa_total :=
                Rsum (map deviation
                        (at_peaks (firstn k datapoint) (firstn k rpeak)));
              aa_rpeak1 :=
                Z.of_nat (length (at_peaks (firstn k datapoint)
                                           (firstn k rpeak))) |})
    (avg_amp_body datapoint rpeak baseline) (length rpeak) 0
    {| aa_total := d0; aa_rpeak1 := 0 |}) as (s' & E & ->).
  - reflexivity.
  - intros k s Hk ->.
    destruct (nth_error_lt rpeak k Hk) as [r Er].
    destruct (nth_error_lt datapoint k) as [y Ey]; [lia|].
    unfold avg_amp_body. rewrite Z.add_0_l, (vget_nth_error _ _ _ Er).
    cbv beta iota delta [bind].
    rewrite (firstn_snoc _ _ _ Er), (firstn_snoc _ _ _ Ey), at_peaks_snoc
      by now apply firstn_prefix_lengths.
    destruct (r =? 1).
    + rewrite (vget_nth_error _ _ _ Ey); simpl.
      eexists; split; [reflexivity|].
      rewrite map_app, Rsum_app, length_app.
      f_equal; [unfold Rsum, deviation; simpl; lra|simpl; lia].
    + rewrite app_nil_r. eauto.
  - rewrite E, firstn_all, at_peaks_firstn. reflexivity.
Qed.

Lemma func_avg_amp_spec :
  func_avg_amp datapoint rpeak baseline
  = Ok (match at_peaks datapoint rpeak with
        | [] => 0%R
        | _ => mean (map deviation (at_peaks datapoint rpeak))
        end).
Proof.
  unfold func_avg_amp. rewrite avg_amp_loop_spec; simpl.
  destruct (at_peaks datapoint rpeak) as [|y l] eqn:E; [reflexivity|].
  change (negb (Z.of_nat (length (y :: l)) =? 0)) with true; cbv iota.
  rewrite div_R by (apply IZR_of_nat_neq_0; discriminate).
  unfold mean. rewrite length_map, INR_IZR_INZ. reflexivity.
Qed.

End AvgAmp.

(** In exact arithmetic, on vectors of the same length, [func_avg_amp] is
    defined (no index
    out of range, no division by zero) and returns the mean of
    |datapoint[i] - baseline| over the indices i with rpeak[i] = 1, each
    taken once; when no flag is 1 it returns 0, whatever the amplitudes
    are. *)
Theorem func_avg_amp_mean_at_peaks (datapoint : list R) (rpeak : list Z)
  (baseline : R) :
  length datapoint = length rpeak ->
  (peak_indices rpeak <> [] ->
   func_avg_amp datapoint rpeak baseline
   = Ok (mean (map (fun i => Rabs (nth i datapoint 0%R - baseline))
                   (peak_indices rpeak)))) /\
  (Forall (fun r => r <> 1) rpeak ->
   func_avg_amp datapoint rpeak baseline = Ok 0%R) /\
  (forall i, In i (peak_indices rpeak) <-> nth_error rpeak i = Some 1) /\
  StronglySorted lt (peak_indices rpeak).
Proof.
  intros Hlen.
  assert (Hfits : (length rpeak <= length datapoint)%nat) by lia.
  pose proof (func_avg_amp_spec datapoint rpeak baseline Hfits) as E.
  split; [|split; [|split]].
  - intros Hne. rewrite E.
    rewrite (at_peaks_peak_indices datapoint rpeak 0%R Hfits).
    destruct (peak_indices rpeak) as [|i l]; [contradiction|].
    cbn [map]. rewrite <- (map_map (fun i => nth i datapoint 0%R)
                                   (fun y => Rabs (y - baseline))).
    reflexivity.
  - intros Hno. rewrite E, (at_peaks_no_flag _ _ Hno). reflexivity.
  - apply peak_indices_In.
  - apply peak_indices_increasing.
Qed.

(* ================================================================== *)
(** * [func_bpm] *)

Lemma consecutive_snoc {A} (l : list A) (t d : A) :
  consecutive (l ++ [t])
  = consecutive l ++ match l with [] => [] | _ => [(last l d, t)] end.
Proof.
  induction l as [|a l IH]; [reflexivity|].
  destruct l as [|b l]; [reflexivity|].
  change (consecutive ((a :: b :: l) ++ [t]))
    with ((a, b) :: consecutive ((b :: l) ++ [t])).
  rewrite IH. reflexivity.
Qed.

Lemma length_consecutive {A} (l : list A) :
  length (consecutive l) = (length l - 1)%nat.
Proof.
  induction l as [|a l IH]; [reflexivity|].
  destruct l as [|b l]; [reflexivity|].
  change (consecutive (a :: b :: l)) with ((a, b) :: consecutive (b :: l)).
  simpl length in *. rewrite IH. lia.
Qed.

Lemma included_intervals_snoc (l : list R) (t : R) :
  included_intervals (l ++ [t])
  = included_intervals l
    ++ (if Reqb (last l (-1)%R) (-1) then [] else [(last l (-1)%R, t)]).
Proof.
  unfold included_intervals.
  rewrite (consecutive_snoc l t (-1)%R), filter_app. f_equal.
  destruct l as [|a l].
  - simpl. now rewrite Reqb_true.
  - cbn [filter]. unfold starts_at_sentinel; cbn [fst].
    now destruct (Reqb (last (a :: l) (-1)%R) (-1)).
Qed.

Lemma included_intervals_all (l : list R) :
  Forall (fun t => t <> (-1)%R) l -> included_intervals l = consecutive l.
Proof.
  unfold included_intervals. intros Hl.
  induction Hl as [|a l Ha Hl IH]; [reflexivity|].
  destruct l as [|b l]; [reflexivity|].
  change (consecutive (a :: b :: l)) with ((a, b) :: consecutive (b :: l)).
  cbn [filter]. unfold starts_at_sentinel at 1; cbn [fst].
  rewrite (Reqb_false _ _ Ha); cbn [negb]. now rewrite IH.
Qed.


Section Bpm.

Variables (timestamp : list R) (rpeak : list Z).

Hypothesis rpeak_fits : (length rpeak <= length timestamp)%nat.

Lemma bpm_loop_spec :
  bpm_loop timestamp rpeak = Ok (bpm_vars_after (at_peaks timestamp rpeak)).
Proof.
  unfold bpm_loop, for_range, vsize. rewrite Z.sub_0_r, Nat2Z.id.
  destruct (for_loop_inv
    (fun k s =>
       s = bpm_vars_after (at_peaks (firstn k timestamp) (firstn k rpeak)))
    (bpm_body timestamp rpeak) (length rpeak) 0
    {| timebetween := d0; prev := of_int (-1); cnt := d0 |}) as (s' & E & ->).
  - reflexivity.
  - intros k s Hk ->.
    destruct (nth_error_lt rpeak k Hk) as [r Er].
    destruct (nth_error_lt timestamp k) as [t Et]; [lia|].
    unfold bpm_body. rewrite Z.add_0_l, (vget_nth_error _ _ _ Er).
    cbv beta iota delta [bind].
    rewrite (firstn_snoc _ _ _ Er), (firstn_snoc _ _ _ Et), at_peaks_snoc
      by now apply firstn_prefix_lengths.
    destruct (r =? 1); [|rewrite app_nil_r; eauto].
    rewrite (vget_nth_error _ _ _ Et).
    set (pts := at_peaks (firstn k timestamp) (firstn k rpeak)).
    unfold bpm_vars_after, dneb.
    cbn [timebetween cnt prev deqb dadd dsub of_int R_Double].
    rewrite included_intervals_snoc, last_last.
    destruct (Reqb (last pts (-1)%R) (-1)); cbn [negb].
    + rewrite app_nil_r. eauto.
    + eexists; split; [reflexivity|].
      rewrite map_app, Rsum_app, length_app, Nat2Z.inj_add, plus_IZR.
      f_equal; unfold Rsum, interval, d1; simpl; lra.
  - rewrite E, firstn_all, at_peaks_firstn. reflexivity.
Qed.

(** The value [func_bpm] returns: 0 below two included intervals, and
    otherwise 60 over their mean, which is undefined when the mean is 0. *)
Lemma func_bpm_spec :
  func_bpm timestamp rpeak
  = let intervals :=
      map interval (included_intervals (at_peaks timestamp rpeak)) in
    if (length intervals <? 2)%nat then Ok 0%R
    else div 60%R (mean intervals).
Proof.
  unfold func_bpm. rewrite bpm_loop_spec.
  cbv beta iota delta [bind]. cbv zeta.
  unfold bpm_vars_after; cbn [cnt timebetween dltb R_Double of_int].
  rewrite length_map.
  set (iv := included_intervals (at_peaks timestamp rpeak)).
  destruct (Nat.ltb_spec (length iv) 2) as [Hlt|Hge].
  - rewrite Rltb_true; [reflexivity|]. apply IZR_lt. lia.
  - rewrite Rltb_false by (apply IZR_le; lia).
    rewrite div_R by (apply IZR_of_nat_neq_0; lia).
    unfold mean. rewrite length_map, INR_IZR_INZ. reflexivity.
Qed.

End Bpm.

(** What [func_bpm] returns on well-formed input: 0 up to two flagged
    samples, the rate from three on. *)
Lemma func_bpm_few_peaks (timestamp : list R) (rpeak : list Z) :
  (length rpeak <= length timestamp)%nat ->
  (length (at_peaks timestamp rpeak) <= 2)%nat ->
  func_bpm timestamp rpeak = Ok 0%R.
Proof.
  intros Hfits Hfew. rewrite (func_bpm_spec _ _ Hfits). cbv zeta.
  rewrite length_map.
  assert (Hle : (length (included_intervals (at_peaks timestamp rpeak))
                 <= length (consecutive (at_peaks timestamp rpeak)))%nat)
    by apply filter_length_le.
  rewrite length_consecutive in Hle.
  destruct (Nat.ltb_spec
              (length (included_intervals (at_peaks timestamp rpeak))) 2);
    [reflexivity|lia].
Qed.

Lemma func_bpm_rate (timestamp : list R) (rpeak : list Z) :
  (length rpeak <= length timestamp)%nat ->
  let intervals := map interval (consecutive (at_peaks timestamp rpeak)) in
  (3 <= length (at_peaks timestamp rpeak))%nat ->
  Forall (fun t => t <> (-1)%R) (at_peaks timestamp rpeak) ->
  mean intervals <> 0%R ->
  func_bpm timestamp rpeak = Ok (60 / mean intervals)%R.
Proof.
  intros Hfits intervals Hmany Hno Hmean.
  rewrite (func_bpm_spec _ _ Hfits). cbv zeta.
  rewrite (included_intervals_all _ Hno). fold intervals.
  assert (Hlen : length intervals = (length (at_peaks timestamp rpeak) - 1)%nat).
  { unfold intervals. now rewrite length_map, length_consecutive. }
  destruct (Nat.ltb_spec (length intervals) 2); [lia|].
  now apply div_R.
Qed.



(** C1. Failing input: two flagged samples one second apart. The loop
    counts one interval, [cnt < 2] holds, and [func_bpm] returns 0, where
    60/T = 60 is expected. *)
Theorem func_bpm_two_peaks :
  func_bpm (map IZR [0; 1]) [1; 1] = Ok 0%R /\
  at_peaks (map IZR [0; 1]) [1; 1] = [0%R; 1%R] /\
  (60 / (1 - 0) <> 0)%R.
Proof.
  split; [|split; [reflexivity|lra]].
  Rrun. reflexivity.
Qed.

(* ================================================================== *)
(** * [func_uniformity] *)

Lemma vget_nth (v : list R) (j : nat) :
  (j < length v)%nat -> vget v (Z.of_nat j) = Ok (nth j v 0%R).
Proof.
  intros Hj. apply vget_nth_error. now apply nth_error_nth'.
Qed.

Lemma deflection_iff (y1 y2 baseline : R) :
  deflection y1 y2 baseline = true
  <-> (y1 > baseline /\ y2 <= baseline)%R \/ (y1 <= baseline /\ y2 > baseline)%R.
Proof.
  unfold deflection, dgtb; simpl.
  rewrite orb_true_iff, !andb_true_iff, !Rltb_iff, !Rleb_iff.
  unfold Rgt. tauto.
Qed.

Lemma vget_nth_d0 {D} `{Double D} (v : list D) (j : nat) :
  (j < length v)%nat -> vget v (Z.of_nat j) = Ok (nth j v d0).
Proof.
  intros Hj. apply vget_nth_error. now apply nth_error_nth'.
Qed.

Section Uniformity.

Context {D : Type} `{Double D}.

Variables (datapoint : list D) (rpeak : list Z) (baseline : D).

Hypothesis rpeak_fits : (length rpeak <= length datapoint)%nat.

(** The [j] loop between two peaks. *)
Lemma unif_inner_spec (p k : nat) :
  (p <= k)%nat -> (k < length datapoint)%nat ->
  for_range (Z.of_nat p) (Z.of_nat k) (unif_inner datapoint baseline) 0
  = Ok (crossings datapoint baseline (p, k)).
Proof.
  intros Hpk Hk. unfold for_range.
  replace (Z.to_nat (Z.of_nat k - Z.of_nat p)) with (k - p)%nat by lia.
  set (test := fun j => deflection (nth j datapoint d0)
                                   (nth (S j) datapoint d0) baseline).
  destruct (for_loop_inv
    (fun m c => c = Z.of_nat (length (filter test (seq p m))))
    (unif_inner datapoint baseline) (k - p) (Z.of_nat p) 0)
    as (c & E & ->).
  - reflexivity.
  - intros m c Hm ->.
    unfold unif_inner.
    rewrite <- Nat2Z.inj_add, vget_nth_d0 by lia.
    replace (Z.of_nat (p + m) + 1) with (Z.of_nat (S (p + m))) by lia.
    rewrite vget_nth_d0 by lia.
    cbv beta iota delta [bind].
    rewrite seq_S, filter_app, length_app. cbn [filter].
    fold (test (p + m)%nat).
    destruct (test (p + m)%nat); eexists; (split; [reflexivity|]);
      simpl; lia.
  - rewrite E. reflexivity.
Qed.

Lemma last_peak_snoc (indices : list nat) (k : nat) :
  last_peak (indices ++ [k]) = Z.of_nat k.
Proof. unfold last_peak. rewrite map_app. apply last_last. Qed.

Lemma last_peak_cases (indices : list nat) :
  (indices = [] /\ last_peak indices = -1) \/
  (indices <> [] /\ last_peak indices = Z.of_nat (last indices O)).
Proof.
  unfold last_peak.
  destruct indices as [|a l]; [left; split; reflexivity|right].
  split; [discriminate|].
  revert a; induction l as [|b l IH]; intros a; [reflexivity|].
  change (last (map Z.of_nat (a :: b :: l)) (-1))
    with (last (map Z.of_nat (b :: l)) (-1)).
  rewrite IH. reflexivity.
Qed.

Lemma last_In (indices : list nat) :
  indices <> [] -> In (last indices O) indices.
Proof.
  induction indices as [|a l IH]; [congruence|]. intros _.
  destruct l as [|b l]; [left; reflexivity|].
  right. apply IH. discriminate.
Qed.

Lemma unif_loop_spec :
  unif_loop datapoint rpeak baseline
  = Ok (unif_vars_after datapoint baseline (peak_indices rpeak)).
Proof.
  unfold unif_loop, for_range, vsize. rewrite Z.sub_0_r, Nat2Z.id.
  destruct (for_loop_inv
    (fun k s => s = unif_vars_after datapoint baseline (peak_indices (firstn k rpeak)))
    (unif_body datapoint rpeak baseline) (length rpeak) 0
    {| count := []; prev_peak := -1; u_rpeak1 := 0 |}) as (s' & E & ->).
  - reflexivity.
  - intros k s Hk ->.
    destruct (nth_error_lt rpeak k Hk) as [r Er].
    unfold unif_body. rewrite Z.add_0_l, (vget_nth_error _ _ _ Er).
    cbv beta iota delta [bind].
    rewrite (firstn_snoc _ _ _ Er), peak_indices_snoc, length_firstn,
      Nat.min_l by lia.
    set (indices := peak_indices (firstn k rpeak)).
    destruct (r =? 1); [|rewrite app_nil_r; eauto].
    assert (Hrange : Forall (fun p => (p < k)%nat) indices).
    { eapply Forall_impl; [|apply (peaks_from_range (firstn k rpeak) 0)].
      simpl. intros p Hp. rewrite length_firstn in Hp. lia. }
    cbv zeta. cbn [plus].
    unfold unif_vars_after at 1 2 3; cbn [count prev_peak u_rpeak1].
    destruct (last_peak_cases indices) as [[Hnil Hlast]|[Hne Hlast]];
      rewrite Hlast.
    + rewrite Hnil. eexists; split; [reflexivity|].
      unfold unif_vars_after; simpl. reflexivity.
    + destruct (Z.eqb_spec (Z.of_nat (last indices O)) (-1)); [lia|].
      cbn [negb].
      rewrite Forall_forall in Hrange.
      pose proof (Hrange _ (last_In indices Hne)) as Hlt.
      rewrite unif_inner_spec by lia.
      eexists; split; [reflexivity|].
      unfold unif_vars_after.
      rewrite (consecutive_snoc indices k O), map_app, last_peak_snoc,
        length_app.
      destruct indices as [|a l]; [congruence|].
      cbn [u_rpeak1]. f_equal. simpl length. lia.
  - rewrite E, firstn_all. reflexivity.
Qed.

End Uniformity.

Lemma fold_left_Rplus {A} (f : A -> R) (l : list A) (a : R) :
  fold_left (fun s x => (s + f x)%R) l a = (a + Rsum (map f l))%R.
Proof.
  revert a; induction l as [|x l IH]; intros a; simpl.
  - unfold Rsum; simpl; lra.
  - rewrite IH. unfold Rsum; simpl; lra.
Qed.

(** The code after the loop computes the population standard deviation. *)
Lemma count_sd_spec (count : list Z) :
  count <> [] -> count_sd count = Ok (pop_sd (map IZR count)).
Proof.
  intros Hne. unfold count_sd, vsize, d0.
  cbn [dadd dsub dmul dsqrt of_int R_Double].
  assert (Hn : IZR (Z.of_nat (length count)) <> 0%R).
  { apply IZR_of_nat_neq_0. now destruct count. }
  rewrite (fold_left_Rplus IZR), div_R by assumption.
  cbv beta iota delta [bind].
  rewrite (fold_left_Rplus (fun x => (IZR x - _) * (IZR x - _))%R),
    div_R by assumption.
  unfold pop_sd, mean.
  rewrite map_map, length_map, INR_IZR_INZ, !Rplus_0_l. reflexivity.
Qed.

Lemma Rsum_constant (l : list R) (c : R) :
  Forall (fun x => x = c) l -> Rsum l = (INR (length l) * c)%R.
Proof.
  intros Hl; induction Hl as [|x l -> _ IH].
  - unfold Rsum; simpl; lra.
  - change (Rsum (c :: l)) with (c + Rsum l)%R.
    change (length (c :: l)) with (S (length l)).
    rewrite IH, S_INR. lra.
Qed.

Lemma pop_sd_constant (l : list R) (c : R) :
  l <> [] -> Forall (fun x => x = c) l -> pop_sd l = 0%R.
Proof.
  intros Hne Hl.
  assert (Hn : INR (length l) <> 0%R).
  { apply not_0_INR. now destruct l. }
  assert (Hmean : mean l = c).
  { unfold mean. rewrite (Rsum_constant l c Hl). now field. }
  unfold pop_sd. rewrite Hmean.
  rewrite (Rsum_constant _ 0%R).
  - rewrite Rmult_0_r. unfold Rdiv. rewrite Rmult_0_l. apply sqrt_0.
  - apply Forall_map. eapply Forall_impl; [|exact Hl].
    simpl. intros x ->. lra.
Qed.

Lemma func_uniformity_spec (datapoint : list R) (rpeak : list Z) (baseline : R) :
  (length rpeak <= length datapoint)%nat ->
  func_uniformity datapoint rpeak baseline
  = if (length (peak_indices rpeak) <? 2)%nat then Ok 0%R
    else Ok (pop_sd (map IZR (deflection_counts datapoint rpeak baseline))).
Proof.
  intros Hfits. unfold func_uniformity.
  rewrite (unif_loop_spec datapoint rpeak baseline Hfits).
  cbv beta iota delta [bind].
  unfold unif_vars_after; cbn [u_rpeak1 count].
  destruct (Nat.ltb_spec (length (peak_indices rpeak)) 2) as [Hlt|Hge].
  - destruct (Z.ltb_spec (Z.of_nat (length (peak_indices rpeak))) 2);
      [reflexivity|lia].
  - destruct (Z.ltb_spec (Z.of_nat (length (peak_indices rpeak))) 2); [lia|].
    apply count_sd_spec.
    intros Hnil. apply (f_equal (@length Z)) in Hnil.
    unfold deflection_counts in Hnil.
    rewrite length_map, length_consecutive in Hnil. simpl in Hnil. lia.
Qed.

(** In exact arithmetic, on vectors of the same length,
    [func_uniformity] is defined. With
    fewer than two flagged samples it returns 0. Otherwise it returns the
    population standard deviation of the deflection counts, one count for
    each pair (prev, curr) of consecutive flagged indices: the number of
    positions j with prev <= j < curr at which one of datapoint[j],
    datapoint[j+1] is strictly above the baseline and the other is at or
    below it. When all the counts are equal the result is 0. *)
Theorem func_uniformity_population_sd (datapoint : list R) (rpeak : list Z)
  (baseline : R) :
  length datapoint = length rpeak ->
  ((length (peak_indices rpeak) < 2)%nat ->
   func_uniformity datapoint rpeak baseline = Ok 0%R) /\
  ((2 <= length (peak_indices rpeak))%nat ->
   func_uniformity datapoint rpeak baseline
   = Ok (pop_sd (map IZR (deflection_counts datapoint rpeak baseline)))) /\
  (forall c,
     (2 <= length (peak_indices rpeak))%nat ->
     Forall (fun x => x = c) (deflection_counts datapoint rpeak baseline) ->
     func_uniformity datapoint rpeak baseline = Ok 0%R) /\
  (forall y1 y2,
     deflection y1 y2 baseline = true
     <-> (y1 > baseline /\ y2 <= baseline)%R
         \/ (y1 <= baseline /\ y2 > baseline)%R).
Proof.
  intros Hlen.
  assert (Hfits : (length rpeak <= length datapoint)%nat) by lia.
  pose proof (func_uniformity_spec datapoint rpeak baseline Hfits) as E.
  repeat split.
  - intros Hlt. rewrite E.
    now destruct (Nat.ltb_spec (length (peak_indices rpeak)) 2); [|lia].
  - intros Hge. rewrite E.
    now destruct (Nat.ltb_spec (length (peak_indices rpeak)) 2); [lia|].
  - intros c Hge Hall. rewrite E.
    destruct (Nat.ltb_spec (length (peak_indices rpeak)) 2); [lia|].
    f_equal. apply (pop_sd_constant _ (IZR c)).
    + intros Hnil. apply (f_equal (@length R)) in Hnil.
      unfold deflection_counts in Hnil.
      rewrite !length_map, length_consecutive in Hnil. simpl in Hnil. lia.
    + apply Forall_map. eapply Forall_impl; [|exact Hall].
      simpl. now intros x ->.
  - apply deflection_iff.
  - apply deflection_iff.
Qed.

(* ================================================================== *)
(** * [func_baseline] *)

Lemma insert_perm {D} `{Double D} (x : D) (l : list D) :
  Permutation (x :: l) (insert x l).
Proof.
  induction l as [|y l IH]; simpl; [reflexivity|].
  destruct (dltb y x); [|reflexivity].
  rewrite perm_swap. now apply perm_skip.
Qed.

Lemma sort_perm {D} `{Double D} (l : list D) : Permutation l (sort l).
Proof.
  induction l as [|x l IH]; simpl; [constructor|].
  rewrite <- insert_perm. now apply perm_skip.
Qed.

Lemma insert_sorted (x : R) (l : list R) :
  StronglySorted Rle l -> StronglySorted Rle (insert x l).
Proof.
  intros Hl; induction Hl as [|y l Hl IH Hy]; simpl.
  - repeat constructor.
  - destruct (Rltb y x) eqn:E.
    + apply Rltb_iff in E. constructor; [assumption|].
      apply (Permutation_Forall (insert_perm x l)).
      constructor; [lra|assumption].
    + assert (Hxy : (x <= y)%R).
      { destruct (Rle_dec x y); [assumption|].
        rewrite Rltb_true in E by lra. discriminate. }
      constructor; [now constructor|].
      constructor; [assumption|].
      eapply Forall_impl; [|exact Hy]. simpl; intros; lra.
Qed.

Lemma sort_sorted (l : list R) : StronglySorted Rle (sort l).
Proof.
  induction l as [|x l IH]; simpl; [constructor|now apply insert_sorted].
Qed.

(** An ascending arrangement of a list is unique. *)
Lemma sorted_perm_unique (s1 s2 : list R) :
  Permutation s1 s2 -> StronglySorted Rle s1 -> StronglySorted Rle s2 ->
  s1 = s2.
Proof.
  revert s2; induction s1 as [|a s1 IH]; intros s2 Hp H1 H2.
  - apply Permutation_nil in Hp. now subst.
  - destruct s2 as [|b s2].
    { apply Permutation_sym, Permutation_nil in Hp. discriminate. }
    inversion H1 as [|? ? H1' Ha]; subst.
    inversion H2 as [|? ? H2' Hb]; subst.
    assert (Hab : a = b).
    { assert (In a (b :: s2)) as [->|Hin2]
        by (apply (Permutation_in _ Hp); now left); [reflexivity|].
      assert (In b (a :: s1)) as [->|Hin1]
        by (apply (Permutation_in _ (Permutation_sym Hp)); now left);
        [reflexivity|].
      rewrite Forall_forall in Ha, Hb.
      specialize (Ha _ Hin1). specialize (Hb _ Hin2). lra. }
    subst b. f_equal.
    apply IH; [|assumption|assumption].
    now apply Permutation_cons_inv in Hp.
Qed.

Lemma sort_unique (l s : list R) :
  Permutation l s -> StronglySorted Rle s -> sort l = s.
Proof.
  intros Hp Hs. apply sorted_perm_unique; [|apply sort_sorted|assumption].
  now rewrite <- sort_perm.
Qed.

Lemma odd_mod2 (n : nat) :
  (Z.of_nat n mod 2 =? 1) = Nat.odd n.
Proof.
  change (Z.of_nat n mod 2) with (Z.of_nat n mod Z.of_nat 2).
  rewrite <- Nat2Z.inj_mod, <- Nat.bit0_mod, Nat.bit0_odd.
  now destruct (Nat.odd n).
Qed.

Lemma func_baseline_sorted (l : list R) :
  l <> [] -> func_baseline l = Ok (median_sorted (sort l)).
Proof.
  intros Hne. unfold func_baseline, median_sorted, vsize.
  set (s := sort l).
  assert (Hlen : length s <> O).
  { unfold s. rewrite <- (Permutation_length (sort_perm l)). now destruct l. }
  rewrite odd_mod2.
  change (Z.of_nat (length s) / 2) with (Z.of_nat (length s) / Z.of_nat 2).
  rewrite <- Nat2Z.inj_div.
  destruct (Nat.odd (length s)) eqn:Hodd.
  - apply vget_nth. apply Nat.div_lt; lia.
  - assert (Hge : (2 <= length s)%nat).
    { destruct (length s) as [|[|n]]; [congruence|discriminate|lia]. }
    assert (Hhalf : (1 <= length s / 2)%nat)
      by (apply Nat.div_le_lower_bound; lia).
    replace (Z.of_nat (length s / 2) - 1)
      with (Z.of_nat (length s / 2 - 1)) by lia.
    assert (Hlt : (length s / 2 < length s)%nat) by (apply Nat.div_lt; lia).
    rewrite !vget_nth by lia.
    cbv beta iota delta [bind].
    apply div_R. simpl. lra.
Qed.

(** On an empty vector [func_baseline] reads [datapoint[-1]]. *)
Lemma func_baseline_empty : func_baseline (@nil R) = Undefined OutOfRange.
Proof. reflexivity. Qed.

(** In exact arithmetic, for a non-empty vector, [func_baseline] is
    defined and returns the
    median: for every ascending arrangement of the amplitudes, the middle
    element when their number is odd and the average of the two middle
    elements when it is even; such an arrangement exists. The result is
    the same for every reordering of the input, and for a single
    amplitude it is that amplitude. *)
Theorem func_baseline_median (datapoint : list R) :
  datapoint <> [] ->
  (exists s, Permutation datapoint s /\ StronglySorted Rle s) /\
  (forall s,
     Permutation datapoint s -> StronglySorted Rle s ->
     func_baseline datapoint = Ok (median_sorted s)) /\
  (forall datapoint',
     Permutation datapoint datapoint' ->
     func_baseline datapoint' = func_baseline datapoint) /\
  (forall x, datapoint = [x] -> func_baseline datapoint = Ok x).
Proof.
  intros Hne. repeat split.
  - exists (sort datapoint). split; [apply sort_perm|apply sort_sorted].
  - intros s Hp Hs. rewrite <- (sort_unique datapoint s Hp Hs).
    now apply func_baseline_sorted.
  - intros l' Hp.
    assert (Hne' : l' <> []).
    { intros ->. apply Permutation_sym, Permutation_nil in Hp. contradiction. }
    rewrite !func_baseline_sorted by assumption.
    do 2 f_equal. apply sort_unique; [|apply sort_sorted].
    now rewrite <- Hp, <- sort_perm.
  - intros x ->. rewrite func_baseline_sorted by discriminate. reflexivity.
Qed.

(* ================================================================== *)
(** * Scenario A *)

Lemma scenario_loaded : load (D := R) scenario_file = scenario.
Proof. reflexivity. Qed.

Lemma scenario_baseline : func_baseline scenario_datapoint = Ok 1%R.
Proof. Rrun. f_equal. lra. Qed.

Lemma scenario_avg_amp :
  func_avg_amp scenario_datapoint scenario_rpeak 1%R = Ok 1%R.
Proof.
  Rrun. f_equal.
  replace (Rabs (0 - 1)) with 1%R by (rewrite Rabs_left; lra).
  lra.
Qed.

Lemma scenario_bpm : func_bpm scenario_timestamp scenario_rpeak = Ok 30%R.
Proof. Rrun. f_equal. lra. Qed.

Lemma scenario_counts :
  deflection_counts scenario_datapoint scenario_rpeak 1%R = [2; 2; 2; 2].
Proof.
  unfold deflection_counts, crossings, deflection, dgtb; simpl.
  Rcompare. reflexivity.
Qed.

Lemma scenario_uniformity :
  func_uniformity scenario_datapoint scenario_rpeak 1%R = Ok 0%R.
Proof.
  rewrite func_uniformity_spec by (simpl; lia).
  rewrite scenario_counts. cbn [peak_indices peaks_from scenario_rpeak Z.eqb
    Pos.eqb length Nat.ltb Nat.leb].
  f_equal. apply (pop_sd_constant _ 2%R); [discriminate|].
  repeat constructor.
Qed.

(** C8. Scenario A: time stamps 0..9, amplitudes 0,2,0,2,..., flags at the
    even indices. The baseline is 1, the average amplitude 1 and the rate
    30; [baseline > 1.0] is false, [bpm <= 150.0] is true, and a run on a
    signal that [clean_ecg] accepts ends with "NO, DO NOT SHOCK". *)
Theorem scenario_A (clean_ecg : list R -> bool) :
  clean_ecg scenario_datapoint = true ->
  func_baseline scenario_datapoint = Ok 1%R /\
  func_avg_amp scenario_datapoint scenario_rpeak 1%R = Ok 1%R /\
  func_bpm scenario_timestamp scenario_rpeak = Ok 30%R /\
  dgtb 1%R (of_int 1) = false /\
  dleb 30%R (of_int 150) = true /\
  shock_decision 1%R 1%R 30%R 0%R = "NO, DO NOT SHOCK"%string /\
  run clean_ecg (Some (scenario_file (D := R)))
  = Ok (banner ++ clean_report 1%R 1%R 30%R 0%R) /\
  In (Cout [Str "Shock patient? "; Str "NO, DO NOT SHOCK"])
     (clean_report 1%R 1%R 30%R 0%R).
Proof.
  intros Hclean.
  assert (Hdecision :
    shock_decision 1%R 1%R 30%R 0%R = "NO, DO NOT SHOCK"%string).
  { unfold shock_decision, do_not_shock, dgtb, dgeb, tenth; simpl.
    Rcompare. reflexivity. }
  repeat split.
  - apply scenario_baseline.
  - apply scenario_avg_amp.
  - apply scenario_bpm.
  - unfold dgtb; simpl. now Rcompare.
  - simpl. now Rcompare.
  - exact Hdecision.
  - unfold run, main, io_bind, cout, emit.
    rewrite scenario_loaded.
    rewrite (analyse_clean clean_ecg scenario 1%R 1%R 30%R 0%R);
      [reflexivity|exact Hclean|apply scenario_baseline|apply scenario_avg_amp
      |apply scenario_bpm|apply scenario_uniformity].
  - unfold clean_report. rewrite Hdecision. simpl. tauto.
Qed.

Lemma scenario_A_witness :
  run (fun _ : list R => true) (Some (scenario_file (D := R)))
  = Ok (banner ++ clean_report 1%R 1%R 30%R 0%R).
Proof.
  apply (scenario_A (fun _ => true)). reflexivity.
Defined.

(* ================================================================== *)
(** * The vectors as [load] leaves them *)

Lemma length_at_peaks {A} (v : list A) (rpeak : list Z) :
  (length rpeak <= length v)%nat ->
  length (at_peaks v rpeak) = length (peak_indices rpeak).
Proof.
  intros Hfits.
  destruct v as [|d v]; [destruct rpeak; [reflexivity|simpl in Hfits; lia]|].
  rewrite (at_peaks_peak_indices (d :: v) rpeak d Hfits). apply length_map.
Qed.

Lemma consecutive_In {A} (l : list A) (a b : A) :
  In (a, b) (consecutive l) -> In a l /\ In b l.
Proof.
  induction l as [|x l IH]; [contradiction|].
  destruct l as [|y l]; [contradiction|].
  change (consecutive (x :: y :: l)) with ((x, y) :: consecutive (y :: l)).
  intros [[= -> ->]|Hin].
  - split; [now left|right; now left].
  - destruct (IH Hin). split; now right.
Qed.

Lemma crossings_firstn (datapoint : list R) (baseline : R) (n p c : nat) :
  (c < n)%nat ->
  crossings (firstn n datapoint) baseline (p, c)
  = crossings datapoint baseline (p, c).
Proof.
  intros Hc. unfold crossings. do 2 f_equal.
  apply filter_ext_in. intros j Hj. apply in_seq in Hj.
  rewrite !nth_firstn.
  destruct (Nat.ltb_spec j n); [|lia].
  destruct (Nat.ltb_spec (S j) n); [reflexivity|lia].
Qed.

Lemma deflection_counts_firstn (datapoint : list R) (rpeak : list Z)
  (baseline : R) :
  deflection_counts (firstn (length rpeak) datapoint) rpeak baseline
  = deflection_counts datapoint rpeak baseline.
Proof.
  unfold deflection_counts. apply map_ext_in. intros [p c] Hin.
  apply crossings_firstn.
  apply consecutive_In in Hin as [_ Hc].
  pose proof (peaks_from_range rpeak 0) as Hr.
  rewrite Forall_forall in Hr. apply (Hr c Hc).
Qed.

Section Truncation.

Variables (v : list R) (rpeak : list Z).

Hypothesis rpeak_fits : (length rpeak <= length v)%nat.

Let rpeak_fits_firstn :
  (length rpeak <= length (firstn (length rpeak) v))%nat.
Proof. rewrite length_firstn. lia. Qed.

(** The estimators read [datapoint] and [timestamp] below [rpeak.size()]
    only. *)
Lemma func_avg_amp_firstn (baseline : R) :
  func_avg_amp (firstn (length rpeak) v) rpeak baseline
  = func_avg_amp v rpeak baseline.
Proof.
  rewrite !func_avg_amp_spec by assumption. now rewrite at_peaks_firstn.
Qed.

Lemma func_bpm_firstn :
  func_bpm (firstn (length rpeak) v) rpeak = func_bpm v rpeak.
Proof.
  rewrite !func_bpm_spec by assumption. now rewrite at_peaks_firstn.
Qed.

Lemma func_uniformity_firstn (baseline : R) :
  func_uniformity (firstn (length rpeak) v) rpeak baseline
  = func_uniformity v rpeak baseline.
Proof.
  rewrite !func_uniformity_spec by assumption.
  now rewrite deflection_counts_firstn.
Qed.

Lemma func_bpm_in_range : func_bpm v rpeak <> Undefined OutOfRange.
Proof.
  rewrite func_bpm_spec by assumption. cbv zeta.
  destruct (_ <? _)%nat; [discriminate|].
  unfold div. destruct (deqb _ _); discriminate.
Qed.

End Truncation.

Section LoadedVectors.

Context {F : Type} `{Istream F R}.

(** C10, as amended. [load] leaves [timestamp] and [datapoint] equally
    long and [rpeak] of the same length or one shorter. On such vectors the
    three estimators that index by [rpeak] stay within bounds:
    [func_avg_amp] and [func_uniformity] are defined, [func_bpm] is never
    out of range, and all three give the same result on the vectors cut at
    [rpeak.size()]. [func_avg_amp] divides by the number of flags, and only
    when it is not 0. [func_uniformity] divides by the size of [count],
    which is the number of flags minus 1, and only when there are at least
    2 flags. [func_bpm] divides [timebetween] by [cnt] only when [cnt] is at
    least 2; its last division, 60.0 by that quotient, has no guard. *)
Theorem loaded_vectors_in_bounds (file : F) :
  let v := load file in
  let n := length (rpeak v) in
  let flags := Z.of_nat (length (peak_indices (rpeak v))) in
  (length (timestamp v) = length (datapoint v) /\
   (length (datapoint v) = n \/ length (datapoint v) = S n)) /\
  (forall baseline,
     exists s,
       avg_amp_loop (datapoint v) (rpeak v) baseline = Ok s /\
       aa_rpeak1 s = flags /\
       func_avg_amp (datapoint v) (rpeak v) baseline
       = (if flags =? 0 then Ok 0%R else div (aa_total s) (IZR flags)) /\
       (exists a, func_avg_amp (datapoint v) (rpeak v) baseline = Ok a) /\
       func_avg_amp (firstn n (datapoint v)) (rpeak v) baseline
       = func_avg_amp (datapoint v) (rpeak v) baseline) /\
  (exists s,
     bpm_loop (timestamp v) (rpeak v) = Ok s /\
     func_bpm (timestamp v) (rpeak v)
     = (if Rltb (cnt s) 2 then Ok 0%R
        else div 60%R (timebetween s / cnt s)%R) /\
     (Rltb (cnt s) 2 = false -> div (timebetween s) (cnt s)
                                = Ok (timebetween s / cnt s)%R) /\
     func_bpm (timestamp v) (rpeak v) <> Undefined OutOfRange /\
     func_bpm (firstn n (timestamp v)) (rpeak v)
     = func_bpm (timestamp v) (rpeak v)) /\
  (forall baseline,
     exists s,
       unif_loop (datapoint v) (rpeak v) baseline = Ok s /\
       u_rpeak1 s = flags /\
       vsize (count s) = Z.max 0 (flags - 1) /\
       (2 <= flags -> 1 <= vsize (count s)) /\
       func_uniformity (datapoint v) (rpeak v) baseline
       = (if flags <? 2 then Ok 0%R else count_sd (count s)) /\
       (exists u, func_uniformity (datapoint v) (rpeak v) baseline = Ok u) /\
       func_uniformity (firstn n (datapoint v)) (rpeak v) baseline
       = func_uniformity (datapoint v) (rpeak v) baseline).
Proof.
  intros v n flags.
  pose proof (load_shape file) as [Hts Hdp]. fold v in Hts, Hdp.
  assert (Hfits : (length (rpeak v) <= length (datapoint v))%nat)
    by (destruct Hdp; lia).
  assert (Hfits' : (length (rpeak v) <= length (timestamp v))%nat) by lia.
  split; [split; assumption|]. split; [|split].
  - intros baseline.
    eexists. split; [apply (avg_amp_loop_spec _ _ _ Hfits)|].
    cbn [aa_rpeak1 aa_total].
    rewrite (length_at_peaks _ _ Hfits). fold flags.
    split; [reflexivity|].
    assert (E : func_avg_amp (datapoint v) (rpeak v) baseline
                = (if flags =? 0 then Ok 0%R
                   else div (Rsum (map (fun y => Rabs (y - baseline))
                                       (at_peaks (datapoint v) (rpeak v))))
                            (IZR flags))).
    { unfold func_avg_amp. rewrite (avg_amp_loop_spec _ _ _ Hfits).
      cbv beta iota delta [bind]. cbn [aa_rpeak1 aa_total].
      rewrite (length_at_peaks _ _ Hfits). fold flags.
      now destruct (flags =? 0). }
    split; [exact E|]. split; [|now apply func_avg_amp_firstn].
    rewrite E. destruct (Z.eqb_spec flags 0); [eauto|].
    rewrite div_R by now apply not_0_IZR. eauto.
  - eexists. split; [apply (bpm_loop_spec _ _ Hfits')|].
    unfold bpm_vars_after; cbn [cnt timebetween].
    set (iv := included_intervals (at_peaks (timestamp v) (rpeak v))).
    assert (Hdiv : Rltb (IZR (Z.of_nat (length iv))) 2 = false ->
                   forall x, div x (IZR (Z.of_nat (length iv)))
                             = Ok (x / IZR (Z.of_nat (length iv)))%R).
    { intros Hge x. apply div_R. intros E0. rewrite E0 in Hge.
      rewrite Rltb_true in Hge by lra. discriminate. }
    split; [|split; [intros Hge; now apply Hdiv|split;
      [now apply func_bpm_in_range|now apply func_bpm_firstn]]].
    unfold func_bpm. rewrite (bpm_loop_spec _ _ Hfits').
    cbv beta iota delta [bind]. unfold bpm_vars_after; cbn [cnt timebetween].
    fold iv. change (dltb (IZR (Z.of_nat (length iv))) (of_int 2))
      with (Rltb (IZR (Z.of_nat (length iv))) 2).
    destruct (Rltb (IZR (Z.of_nat (length iv))) 2) eqn:Hlt; [reflexivity|].
    now rewrite (Hdiv eq_refl).
  - intros baseline.
    eexists. split; [apply (unif_loop_spec _ _ _ Hfits)|].
    unfold unif_vars_after; cbn [u_rpeak1 count].
    assert (Hsize :
      vsize (map (crossings (datapoint v) baseline)
                 (consecutive (peak_indices (rpeak v))))
      = Z.max 0 (flags - 1)).
    { unfold vsize. rewrite length_map, length_consecutive. lia. }
    split; [reflexivity|]. split; [exact Hsize|]. split; [lia|].
    assert (E : func_uniformity (datapoint v) (rpeak v) baseline
                = (if flags <? 2 then Ok 0%R
                   else count_sd (map (crossings (datapoint v) baseline)
                                      (consecutive (peak_indices (rpeak v)))))).
    { unfold func_uniformity. rewrite (unif_loop_spec _ _ _ Hfits).
      reflexivity. }
    split; [exact E|]. split; [|now apply func_uniformity_firstn].
    rewrite (func_uniformity_spec _ _ _ Hfits).
    destruct (_ <? _)%nat; eauto.
Qed.

End LoadedVectors.

(** C10 as stated fails on [func_bpm]: three flagged samples with the same
    time stamp give [timebetween] = 0 and [cnt] = 2, so the quotient is 0
    and 60.0 is divided by it. *)
Lemma func_bpm_division_unguarded :
  let v := load (D := R)
             (record_fields 5 0 1 ++ record_fields 5 0 1 ++ record_fields 5 0 1)
  in
  loaded_shape v /\
  bpm_loop (timestamp v) (rpeak v)
  = Ok {| timebetween := (0 + (5 - 5) + (5 - 5))%R;
          prev := 5%R;
          cnt := (0 + 1 + 1)%R |} /\
  func_bpm (timestamp v) (rpeak v) = Undefined DivByZero.
Proof.
  split; [|split].
  - apply load_shape.
  - Rrun. reflexivity.
  - Rrun. reflexivity.
Qed.

(* ================================================================== *)
(** * The same runs on binary64 *)

Example float_scenario_A :
  run (D := PrimFloat.float) (fun _ => true) (Some scenario_file)
  = Ok (banner ++ clean_report (float_of_Z 1) (float_of_Z 1) (float_of_Z 30) (float_of_Z 0)).
Proof. vm_compute. reflexivity. Qed.

Example float_two_peaks :
  func_bpm (map float_of_Z [0; 1]) [1; 1] = Ok (float_of_Z 0).
Proof. vm_compute. reflexivity. Qed.

Example float_three_peaks :
  func_bpm (map float_of_Z [0; 1; 2]) [1; 1; 1] = Ok (float_of_Z 60).
Proof. vm_compute. reflexivity. Qed.

Example float_sentinel :
  func_bpm (map float_of_Z [-1; 1; 2; 3]) [1; 1; 1; 1] = Ok (float_of_Z 60).
Proof. vm_compute. reflexivity. Qed.

Example float_record_without_flag :
  let v := load (D := PrimFloat.float) [FInt 0; FInt 1] in
  (length (timestamp v), length (datapoint v), length (rpeak v))
  = (1, 1, 0)%nat.
Proof. vm_compute. reflexivity. Qed.

(* ================================================================== *)
(** * More on step 2: what [load] keeps of a file *)

Section RecordFacts.

Context {F D : Type} `{Istream F D}.

Lemma push_no_records (v : vectors D) : push_records v [] = v.
Proof.
  destruct v as [ts dp rp]. unfold push_records; simpl.
  now rewrite !app_nil_r.
Qed.

(** The loop runs through the complete records at the head of the file. *)
Lemma load_loop_records (file rest : F) (records : list (record D)) :
  holds_records file records rest ->
  forall fuel v,
    (remaining file < fuel)%nat ->
    exists fuel',
      (remaining rest < fuel')%nat /\
      load_loop fuel file v = load_loop fuel' rest (push_records v records).
Proof.
  intros Hrec.
  induction Hrec as [file|file file1 file2 file3 rest x y z records
                          Ex Ey Ez Hrec IH]; intros fuel v Hfuel.
  - exists fuel. now rewrite push_no_records.
  - destruct fuel as [|fuel]; [lia|].
    pose proof (extract_double_consumes _ _ _ Ex).
    pose proof (extract_double_consumes _ _ _ Ey).
    pose proof (extract_int_consumes _ _ _ Ez).
    simpl. rewrite Ex, Ey, Ez.
    destruct (IH fuel
                {| timestamp := timestamp v ++ [x];
                   datapoint := datapoint v ++ [y];
                   rpeak := rpeak v ++ [z] |}) as (fuel' & Hf & E); [lia|].
    exists fuel'. split; [assumption|].
    simpl in E |- *. rewrite E. unfold push_records; simpl.
    now rewrite <- !app_assoc.
Qed.

(** X4. A file that holds complete records and then ends, or fails at the
    next time stamp or at the amplitude after it, loads as exactly those
    records, in order; a time stamp without amplitude is dropped. *)
Theorem load_complete_records (file rest : F) (records : list (record D)) :
  holds_records file records rest ->
  fails_before_amplitude rest ->
  load file = vectors_of records.
Proof.
  intros Hrec Hend. unfold load.
  destruct (load_loop_records file rest records Hrec
              (S (remaining file)) no_vectors) as (fuel' & Hf & E); [lia|].
  rewrite E. destruct fuel' as [|fuel']; [lia|]. simpl.
  destruct Hend as [Ex|(x & rest' & Ex & Ey)].
  - rewrite Ex. reflexivity.
  - rewrite Ex, Ey. reflexivity.
Qed.

(** X5. When the flag of a record cannot be read, the time stamp and the
    amplitude of that record stay in the vectors behind the complete
    records, and [rpeak] holds the flags of the complete records only. *)
Theorem load_record_cut_at_flag (file rest rest1 rest2 : F)
  (records : list (record D)) (x y : D) :
  holds_records file records rest ->
  extract_double rest = Some (x, rest1) ->
  extract_double rest1 = Some (y, rest2) ->
  extract_int rest2 = None ->
  load file
  = {| timestamp := map (fun r => fst (fst r)) records ++ [x];
       datapoint := map (fun r => snd (fst r)) records ++ [y];
       rpeak := map snd records |}.
Proof.
  intros Hrec Ex Ey Ez. unfold load.
  destruct (load_loop_records file rest records Hrec
              (S (remaining file)) no_vectors) as (fuel' & Hf & E); [lia|].
  rewrite E. destruct fuel' as [|fuel']; [lia|]. simpl.
  rewrite Ex, Ey, Ez. reflexivity.
Qed.

End RecordFacts.

Lemma fast_file_records :
  holds_records fast_file fast_records (@nil (field R)).
Proof.
  unfold fast_file, fast_records; simpl.
  repeat (eapply holds_record; [reflexivity|reflexivity|reflexivity|]).
  apply holds_none.
Qed.

Lemma load_complete_records_witness :
  load fast_file = vectors_of fast_records.
Proof.
  apply (load_complete_records fast_file (@nil (field R)) fast_records).
  - apply fast_file_records.
  - left. reflexivity.
Defined.

Lemma load_record_cut_at_flag_witness :
  load (D := R) [FInt 0; FInt 2; FInt 1; FInt 1; FInt 3; FOther]
  = {| timestamp := [0%R; 1%R]; datapoint := [2%R; 3%R]; rpeak := [1] |}.
Proof.
  apply (load_record_cut_at_flag
           [FInt 0; FInt 2; FInt 1; FInt 1; FInt 3; FOther]
           [FInt 1; FInt 3; FOther] [FInt 3; FOther] [FOther]
           [(0%R, 2%R, 1)] 1%R 3%R).
  - eapply holds_record; [reflexivity|reflexivity|reflexivity|].
    apply holds_none.
  - reflexivity.
  - reflexivity.
  - reflexivity.
Defined.

(* ================================================================== *)
(** * More on [main]: which runs there are *)

Section RunFacts.

Context {F D : Type} `{Double D} `{Istream F D}.

Variable clean_ecg : list D -> bool.

(** A defined run of steps 3 to 9 is one of two reports. *)
Lemma analyse_Ok_inv (v : vectors D) (log log' : list (event D)) (z : Z) :
  analyse clean_ecg v log = Ok (z, log') ->
  (clean_ecg (datapoint v) = false /\ log' = log ++ not_clean_report) \/
  (clean_ecg (datapoint v) = true /\
   exists baseline avg_amp bpm uniformity,
     func_baseline (datapoint v) = Ok baseline /\
     func_avg_amp (datapoint v) (rpeak v) baseline = Ok avg_amp /\
     func_bpm (timestamp v) (rpeak v) = Ok bpm /\
     func_uniformity (datapoint v) (rpeak v) baseline = Ok uniformity /\
     log' = log ++ clean_report baseline avg_amp bpm uniformity).
Proof.
  destruct (clean_ecg (datapoint v)) eqn:Hc.
  - intros E. right. split; [reflexivity|].
    unfold analyse, io_bind, call, cout, emit, io_ret in E.
    rewrite Hc in E.
    destruct (func_baseline (datapoint v)) as [b|] eqn:Hb; [|discriminate].
    destruct (func_avg_amp (datapoint v) (rpeak v) b) as [a|] eqn:Ha;
      [|discriminate].
    destruct (func_bpm (timestamp v) (rpeak v)) as [r|] eqn:Hr;
      [|discriminate].
    destruct (func_uniformity (datapoint v) (rpeak v) b) as [u|] eqn:Hu;
      [|discriminate].
    exists b, a, r, u.
    repeat (split; [first [reflexivity|assumption]|]).
    injection E as _ <-. unfold clean_report.
    repeat rewrite <- app_assoc. reflexivity.
  - intros E. left. split; [reflexivity|].
    rewrite (analyse_not_clean clean_ecg v log Hc) in E.
    now injection E as _ <-.
Qed.

Lemma run_Ok_inv (ecg_dat : option F) (log : list (event D)) :
  run clean_ecg ecg_dat = Ok log ->
  (ecg_dat = None /\
   log = banner ++ [Cout [Str "ERROR: input file not found"]]) \/
  (exists file,
     ecg_dat = Some file /\
     clean_ecg (datapoint (load file)) = false /\
     log = banner ++ not_clean_report) \/
  (exists file baseline avg_amp bpm uniformity,
     ecg_dat = Some file /\
     clean_ecg (datapoint (load file)) = true /\
     func_baseline (datapoint (load file)) = Ok baseline /\
     func_avg_amp (datapoint (load file)) (rpeak (load file)) baseline
     = Ok avg_amp /\
     func_bpm (timestamp (load file)) (rpeak (load file)) = Ok bpm /\
     func_uniformity (datapoint (load file)) (rpeak (load file)) baseline
     = Ok uniformity /\
     log = banner ++ clean_report baseline avg_amp bpm uniformity).
Proof.
  destruct ecg_dat as [file|]; unfold run, main, io_bind, cout, emit.
  - destruct (analyse clean_ecg (load file) _) as [[z log']|] eqn:E;
      [|discriminate].
    intros [= <-]. right.
    apply analyse_Ok_inv in E
      as [[Hc ->]|(Hc & b & a & r & u & Hb & Ha & Hr & Hu & ->)].
    + left. exists file. repeat split; assumption.
    + right. exists file, b, a, r, u. repeat split; assumption.
  - intros [= <-]. left. split; reflexivity.
Qed.

(** X1. Every defined run starts with the banner and makes its calls in
    one of three ways: none when [ecg.dat] cannot be opened; [clean_ecg]
    alone when it answers false; [clean_ecg], [visualize_ecg] and the four
    estimators, in this order, when it answers true. *)
Theorem run_calls (ecg_dat : option F) (log : list (event D)) :
  run clean_ecg ecg_dat = Ok log ->
  (exists rest, log = banner ++ rest) /\
  ((ecg_dat = None /\ calls log = []) \/
   (exists file,
      ecg_dat = Some file /\ clean_ecg (datapoint (load file)) = false /\
      calls log = [Clean_ecg]) \/
   (exists file,
      ecg_dat = Some file /\ clean_ecg (datapoint (load file)) = true /\
      calls log = all_calls)).
Proof.
  intros E. apply run_Ok_inv in E
    as [[-> ->]|[(file & -> & Hc & ->)
                |(file & b & a & r & u & -> & Hc & _ & _ & _ & _ & ->)]].
  - split; [eauto|]. left. split; reflexivity.
  - split; [eauto|]. right; left. exists file. repeat split; assumption.
  - split; [eauto|]. right; right. exists file. repeat split; assumption.
Qed.

(** X3. When no amplitude is loaded and [clean_ecg] accepts the empty
    signal, the run has undefined behaviour: [func_baseline] reads
    [datapoint[-1]] of an empty vector. *)
Theorem run_without_samples (file : F) :
  datapoint (load file) = [] ->
  clean_ecg [] = true ->
  run clean_ecg (Some file) = Undefined OutOfRange.
Proof.
  intros Hdp Hc.
  unfold run, main, io_bind, cout, emit, analyse, call.
  rewrite Hdp, Hc. reflexivity.
Qed.

End RunFacts.

Lemma run_calls_witness :
  calls (banner (D := R) ++ not_clean_report) = [Clean_ecg].
Proof.
  destruct (run_calls (D := R) (fun _ => false) (Some (@nil (field R)))
              (banner ++ not_clean_report)) as [_ Hcalls]; [reflexivity|].
  destruct Hcalls as [[Hn _]|[(file & _ & _ & Hcalls)|(file & _ & Hc & _)]].
  - discriminate.
  - exact Hcalls.
  - discriminate.
Defined.

Lemma run_without_samples_witness :
  run (D := R) (fun _ => true) (Some (@nil (field R)))
  = Undefined OutOfRange.
Proof.
  apply (run_without_samples (D := R) (fun _ => true) (@nil (field R)));
    reflexivity.
Defined.

(* ================================================================== *)
(** * Counting the elements that pass a test *)

Lemma filter_length_perm {A} (p : A -> bool) (l l' : list A) :
  Permutation l l' -> length (filter p l) = length (filter p l').
Proof.
  intros Hp; induction Hp as [|x l l' _ IH|x y l|l l' l'' _ IH1 _ IH2]; simpl.
  - reflexivity.
  - destruct (p x); simpl; now rewrite IH.
  - destruct (p x), (p y); reflexivity.
  - now rewrite IH1.
Qed.

(** The first [c] elements pass the test. *)
Lemma count_prefix {A} (p : A -> bool) (d : A) (s : list A) :
  forall c, (c <= length s)%nat ->
    (forall i, (i < c)%nat -> p (nth i s d) = true) ->
    (c <= length (filter p s))%nat.
Proof.
  induction s as [|x s IH]; intros c Hc Hp; simpl in *; [lia|].
  destruct c as [|c]; [lia|].
  rewrite (Hp O) by lia. simpl.
  apply le_n_S, IH; [lia|].
  intros i Hi. apply (Hp (S i)). lia.
Qed.

(** The elements from index [c] on pass the test. *)
Lemma count_suffix {A} (p : A -> bool) (d : A) (s : list A) :
  forall c,
    (forall i, (c <= i < length s)%nat -> p (nth i s d) = true) ->
    (length s - c <= length (filter p s))%nat.
Proof.
  induction s as [|x s IH]; intros c Hp; simpl in *; [lia|].
  destruct c as [|c].
  - rewrite (Hp O) by lia. simpl.
    specialize (IH O). rewrite Nat.sub_0_r in IH.
    apply le_n_S, IH. intros i Hi. apply (Hp (S i)). lia.
  - specialize (IH c).
    assert (length s - c <= length (filter p s))%nat.
    { apply IH. intros i Hi. apply (Hp (S i)). lia. }
    destruct (p x); simpl; lia.
Qed.

Lemma odd_mod2_nat (n : nat) :
  (n mod 2 = if Nat.odd n then 1 else 0)%nat.
Proof.
  rewrite <- Nat.bit0_mod, Nat.bit0_odd. now destruct (Nat.odd n).
Qed.

(* ================================================================== *)
(** * More on [func_avg_amp] *)

Lemma Rsum_nonneg (l : list R) :
  Forall (fun x => (0 <= x)%R) l -> (0 <= Rsum l)%R.
Proof.
  intros Hl; induction Hl as [|x l Hx _ IH]; unfold Rsum in *; simpl; lra.
Qed.

Lemma Rsum_map_le {A} (f g : A -> R) (l : list A) :
  (forall x, In x l -> (f x <= g x)%R) ->
  (Rsum (map f l) <= Rsum (map g l))%R.
Proof.
  induction l as [|x l IH]; intros Hfg; unfold Rsum in *; simpl; [lra|].
  assert (f x <= g x)%R by (apply Hfg; now left).
  assert (fold_right Rplus 0 (map f l) <= fold_right Rplus 0 (map g l))%R
    by (apply IH; intros y Hy; apply Hfg; now right).
  lra.
Qed.

Lemma INR_length_pos {A} (l : list A) : l <> [] -> (0 < INR (length l))%R.
Proof. intros Hne. apply lt_0_INR. destruct l; simpl; [congruence|lia]. Qed.

(** [func_avg_amp] over the flagged indices. *)
Lemma func_avg_amp_indices (datapoint : list R) (rpeak : list Z)
  (baseline : R) :
  (length rpeak <= length datapoint)%nat ->
  func_avg_amp datapoint rpeak baseline
  = Ok (match peak_indices rpeak with
        | [] => 0%R
        | _ => mean (map (fun i => Rabs (nth i datapoint 0%R - baseline))
                         (peak_indices rpeak))
        end).
Proof.
  intros Hfits.
  rewrite (func_avg_amp_spec datapoint rpeak baseline Hfits).
  rewrite (at_peaks_peak_indices datapoint rpeak 0%R Hfits).
  destruct (peak_indices rpeak) as [|i l]; [reflexivity|].
  cbn [map]. rewrite <- (map_map (fun i => nth i datapoint 0%R)
                                 (fun y => Rabs (y - baseline))).
  reflexivity.
Qed.

(** X7. [func_avg_amp] never returns a negative amplitude. *)
Theorem func_avg_amp_nonneg (datapoint : list R) (rpeak : list Z)
  (baseline : R) :
  (length rpeak <= length datapoint)%nat ->
  exists avg_amp,
    func_avg_amp datapoint rpeak baseline = Ok avg_amp /\ (0 <= avg_amp)%R.
Proof.
  intros Hfits. eexists. split; [now apply func_avg_amp_indices|].
  destruct (peak_indices rpeak) as [|i l] eqn:E; [lra|].
  unfold mean. apply Rmult_le_pos.
  - apply Rsum_nonneg, Forall_map, Forall_forall.
    intros x _. apply Rabs_pos.
  - left. apply Rinv_0_lt_compat, INR_length_pos. discriminate.
Qed.

Lemma func_avg_amp_nonneg_witness :
  exists avg_amp,
    func_avg_amp (map IZR [3; 0; -3]) [1; 0; 1] 0%R = Ok avg_amp /\
    (0 <= avg_amp)%R.
Proof.
  apply (func_avg_amp_nonneg (map IZR [3; 0; -3]) [1; 0; 1] 0%R).
  simpl. lia.
Defined.

(** X8. [func_avg_amp] is monotone in the deviations: when every flagged
    amplitude of one trace is at most as far from its baseline as the
    amplitude at the same index of another trace with the same flags, its
    average amplitude is at most the other's. *)
Theorem func_avg_amp_monotone (datapoint datapoint' : list R)
  (rpeak : list Z) (baseline baseline' : R) :
  (length rpeak <= length datapoint)%nat ->
  (length rpeak <= length datapoint')%nat ->
  (forall i, nth_error rpeak i = Some 1 ->
     (Rabs (nth i datapoint 0 - baseline)
      <= Rabs (nth i datapoint' 0 - baseline'))%R) ->
  exists avg_amp avg_amp',
    func_avg_amp datapoint rpeak baseline = Ok avg_amp /\
    func_avg_amp datapoint' rpeak baseline' = Ok avg_amp' /\
    (avg_amp <= avg_amp')%R.
Proof.
  intros Hfits Hfits' Hdev.
  do 2 eexists.
  split; [now apply func_avg_amp_indices|].
  split; [now apply func_avg_amp_indices|].
  destruct (peak_indices rpeak) as [|i l] eqn:E; [lra|].
  unfold mean. rewrite !length_map.
  apply Rmult_le_compat_r.
  - left. apply Rinv_0_lt_compat, INR_length_pos. discriminate.
  - apply Rsum_map_le. intros j Hj. apply Hdev.
    apply peak_indices_In. now rewrite E.
Qed.

Lemma func_avg_amp_monotone_witness :
  exists avg_amp avg_amp',
    func_avg_amp (map IZR [1; 9; 1]) [1; 0; 1] 0%R = Ok avg_amp /\
    func_avg_amp (map IZR [2; 0; 2]) [1; 0; 1] 0%R = Ok avg_amp' /\
    (avg_amp <= avg_amp')%R.
Proof.
  apply (func_avg_amp_monotone (map IZR [1; 9; 1]) (map IZR [2; 0; 2])
           [1; 0; 1] 0%R 0%R).
  - simpl; lia.
  - simpl; lia.
  - intros [|[|[|i]]]; simpl; intros E; try discriminate.
    + rewrite !Rabs_right by lra. lra.
    + rewrite !Rabs_right by lra. lra.
    + destruct i; discriminate.
Defined.

(* ================================================================== *)
(** * More on [func_avg_amp] and [func_bpm] *)

(** X14. [func_avg_amp] and [func_bpm] read their first vector at the
    flagged indices only: two vectors that agree wherever the flag is 1
    give the same results. *)
Theorem estimators_read_flagged_only (v v' : list R) (rpeak : list Z)
  (baseline : R) :
  (length rpeak <= length v)%nat ->
  (length rpeak <= length v')%nat ->
  (forall i, nth_error rpeak i = Some 1 -> nth i v 0%R = nth i v' 0%R) ->
  func_avg_amp v rpeak baseline = func_avg_amp v' rpeak baseline /\
  func_bpm v rpeak = func_bpm v' rpeak.
Proof.
  intros Hfits Hfits' Hagree.
  assert (E : at_peaks v rpeak = at_peaks v' rpeak).
  { rewrite (at_peaks_peak_indices v rpeak 0%R Hfits),
      (at_peaks_peak_indices v' rpeak 0%R Hfits').
    apply map_ext_in. intros i Hi. now apply Hagree, peak_indices_In. }
  rewrite !func_avg_amp_spec, !func_bpm_spec by assumption.
  now rewrite E.
Qed.

Lemma estimators_read_flagged_only_witness :
  func_avg_amp (map IZR [1; 7; 3]) [1; 0; 1] 0%R
  = func_avg_amp (map IZR [1; 8; 3]) [1; 0; 1] 0%R /\
  func_bpm (map IZR [1; 7; 3]) [1; 0; 1]
  = func_bpm (map IZR [1; 8; 3]) [1; 0; 1].
Proof.
  apply (estimators_read_flagged_only (map IZR [1; 7; 3]) (map IZR [1; 8; 3])
           [1; 0; 1] 0%R).
  - simpl; lia.
  - simpl; lia.
  - intros [|[|[|i]]]; simpl; intros E; try discriminate; reflexivity.
Defined.

(* ================================================================== *)
(** * More on [func_uniformity] *)

Lemma sorted_first_last (l : list nat) (x : nat) :
  StronglySorted lt l -> In x l -> (hd O l <= x <= last l O)%nat.
Proof.
  intros Hl; revert x. induction Hl as [|a l Hl IH Ha]; intros x Hin.
  - contradiction.
  - rewrite Forall_forall in Ha. simpl hd.
    destruct l as [|b l].
    + destruct Hin as [<-|[]]. simpl. lia.
    + change (last (a :: b :: l) O) with (last (b :: l) O).
      assert (Hb : (a < b)%nat) by (apply Ha; now left).
      destruct Hin as [<-|Hin].
      * specialize (IH b (or_introl eq_refl)). cbn [hd] in IH. lia.
      * pose proof (IH x Hin) as Hx. cbn [hd] in Hx.
        lia.
Qed.

(** X11. [func_uniformity] reads the amplitudes from the first to the last
    flagged index only: two vectors that agree between them give the same
    result. *)
Theorem func_uniformity_between_peaks (datapoint datapoint' : list R)
  (rpeak : list Z) (baseline : R) :
  (length rpeak <= length datapoint)%nat ->
  (length rpeak <= length datapoint')%nat ->
  (forall i,
     (hd O (peak_indices rpeak) <= i <= last (peak_indices rpeak) O)%nat ->
     nth i datapoint 0%R = nth i datapoint' 0%R) ->
  func_uniformity datapoint rpeak baseline
  = func_uniformity datapoint' rpeak baseline.
Proof.
  intros Hfits Hfits' Hagree.
  rewrite !func_uniformity_spec by assumption.
  assert (E : deflection_counts datapoint rpeak baseline
              = deflection_counts datapoint' rpeak baseline).
  { unfold deflection_counts. apply map_ext_in. intros [p c] Hin.
    apply consecutive_In in Hin as [Hp Hc].
    pose proof (sorted_first_last _ p (peak_indices_increasing rpeak) Hp).
    pose proof (sorted_first_last _ c (peak_indices_increasing rpeak) Hc).
    unfold crossings. change (@d0 R R_Double) with 0%R. do 2 f_equal.
    apply filter_ext_in. intros j Hj. apply in_seq in Hj.
    rewrite (Hagree j), (Hagree (S j)) by lia. reflexivity. }
  now rewrite E.
Qed.

Lemma func_uniformity_between_peaks_witness :
  func_uniformity (map IZR [9; 0; 2; 0; 2; 0; 9]) [0; 1; 0; 1; 0; 1; 0] 1%R
  = func_uniformity (map IZR [0; 0; 2; 0; 2; 0; 0]) [0; 1; 0; 1; 0; 1; 0] 1%R.
Proof.
  apply (func_uniformity_between_peaks
           (map IZR [9; 0; 2; 0; 2; 0; 9]) (map IZR [0; 0; 2; 0; 2; 0; 0])
           [0; 1; 0; 1; 0; 1; 0] 1%R).
  - simpl; lia.
  - simpl; lia.
  - simpl. intros i Hi.
    destruct i as [|[|[|[|[|[|i]]]]]]; try reflexivity; lia.
Defined.

Lemma Rsum_zero_all (l : list R) :
  Forall (fun x => (0 <= x)%R) l -> Rsum l = 0%R ->
  Forall (fun x => x = 0%R) l.
Proof.
  intros Hl; induction Hl as [|x l Hx Hl IH]; intros E; [constructor|].
  change (Rsum (x :: l)) with (x + Rsum l)%R in E.
  pose proof (Rsum_nonneg l Hl).
  constructor; [lra|]. apply IH. lra.
Qed.

(** A standard deviation of 0 leaves no spread. *)
Lemma pop_sd_zero (l : list R) :
  l <> [] -> pop_sd l = 0%R -> Forall (fun x => x = mean l) l.
Proof.
  intros Hne E. unfold pop_sd in E.
  set (sq := map (fun x => (x - mean l) * (x - mean l))%R l) in *.
  assert (Hsq : Forall (fun x => (0 <= x)%R) sq).
  { unfold sq. apply Forall_map, Forall_forall.
    intros x _. exact (Rle_0_sqr (x - mean l)). }
  pose proof (INR_length_pos l Hne) as Hn.
  assert (Hpos : (0 <= Rsum sq / INR (length l))%R).
  { apply Rmult_le_pos; [now apply Rsum_nonneg|].
    left. now apply Rinv_0_lt_compat. }
  apply (sqrt_eq_0 _ Hpos) in E.
  assert (E0 : Rsum sq = 0%R).
  { apply Rmult_integral in E as [E|E]; [assumption|].
    pose proof (Rinv_0_lt_compat _ Hn). lra. }
  pose proof (Rsum_zero_all sq Hsq E0) as Hall.
  unfold sq in Hall. rewrite Forall_map in Hall.
  eapply Forall_impl; [|exact Hall].
  cbv beta. intros x Hx.
  apply Rmult_integral in Hx. lra.
Qed.

Lemma pop_sd_nonneg (l : list R) : (0 <= pop_sd l)%R.
Proof. unfold pop_sd. apply sqrt_pos. Qed.

(** X12. With two or more flagged samples, the uniformity is never
    negative, and it is 0 exactly when all the deflection counts are equal.
    With exactly two flagged samples there is one count, so it is 0. *)
Theorem func_uniformity_zero_iff (datapoint : list R) (rpeak : list Z)
  (baseline : R) :
  (length rpeak <= length datapoint)%nat ->
  (2 <= length (peak_indices rpeak))%nat ->
  exists uniformity,
    func_uniformity datapoint rpeak baseline = Ok uniformity /\
    (0 <= uniformity)%R /\
    (uniformity = 0%R
     <-> exists c,
           Forall (fun x => x = c)
                  (deflection_counts datapoint rpeak baseline)) /\
    (length (peak_indices rpeak) = 2%nat -> uniformity = 0%R).
Proof.
  intros Hfits Hmany.
  set (counts := deflection_counts datapoint rpeak baseline).
  assert (Hlen : length counts = (length (peak_indices rpeak) - 1)%nat).
  { unfold counts, deflection_counts.
    now rewrite length_map, length_consecutive. }
  assert (Hne : map IZR counts <> []).
  { intros E. apply (f_equal (@length R)) in E.
    rewrite length_map in E. simpl in E. lia. }
  assert (Hconst : forall c, Forall (fun x => x = c) counts ->
                             pop_sd (map IZR counts) = 0%R).
  { intros c Hall. apply (pop_sd_constant _ (IZR c)); [assumption|].
    apply Forall_map. eapply Forall_impl; [|exact Hall].
    simpl. now intros x ->. }
  exists (pop_sd (map IZR counts)).
  split; [|split; [apply pop_sd_nonneg|split]].
  - rewrite (func_uniformity_spec _ _ _ Hfits).
    now destruct (Nat.ltb_spec (length (peak_indices rpeak)) 2); [lia|].
  - split.
    + intros E. apply (pop_sd_zero _ Hne) in E.
      rewrite Forall_map in E.
      destruct counts as [|c0 counts']; [contradiction|].
      exists c0. inversion E as [|? ? Hc0 Hrest]; subst.
      constructor; [reflexivity|].
      eapply Forall_impl; [|exact Hrest].
      cbv beta. intros x Hx. apply eq_IZR. now rewrite Hx, Hc0.
    + intros [c Hall]. now apply (Hconst c).
  - intros Htwo.
    destruct counts as [|c0 [|c1 counts']] eqn:Ec; simpl in Hlen; try lia.
    apply (Hconst c0). repeat constructor.
Qed.

Lemma func_uniformity_zero_iff_witness :
  exists uniformity,
    func_uniformity (map IZR [0; 2; 0; 2; 2])
                    [1; 0; 1; 0; 1] 1%R = Ok uniformity /\
    (0 <= uniformity)%R.
Proof.
  destruct (func_uniformity_zero_iff (map IZR [0; 2; 0; 2; 2])
              [1; 0; 1; 0; 1] 1%R) as (u & E & Hu & _).
  - simpl; lia.
  - simpl; lia.
  - exists u. split; assumption.
Defined.

(* ================================================================== *)
(** * More on the whole run: too few peaks *)

Lemma no_shock_at_rate_0 (baseline avg_amp uniformity : R) :
  shock_decision baseline avg_amp 0%R uniformity = "NO, DO NOT SHOCK"%string.
Proof.
  unfold shock_decision, do_not_shock.
  replace (dleb 0%R (of_int 150)) with true
    by (symmetry; apply Rleb_true; simpl; lra).
  now rewrite orb_true_r.
Qed.

Section FewPeaks.

Context {F : Type} `{Istream F R}.

Variable clean_ecg : list R -> bool.

(** X13. A clean, non-empty trace with at most two flagged samples never
    leads to a shock: the run is defined, the rate it reports is 0, and its
    verdict is "NO, DO NOT SHOCK". *)
Theorem few_peaks_no_shock (file : F) :
  clean_ecg (datapoint (load file)) = true ->
  datapoint (load file) <> [] ->
  (length (peak_indices (rpeak (load file))) <= 2)%nat ->
  exists baseline avg_amp uniformity,
    run clean_ecg (Some file)
    = Ok (banner ++ clean_report baseline avg_amp 0%R uniformity) /\
    In no_shock_line (clean_report baseline avg_amp 0%R uniformity).
Proof.
  intros Hclean Hne Hfew.
  pose proof (load_shape file) as [Hts Hdp].
  set (v := load file) in *.
  assert (Hfits : (length (rpeak v) <= length (datapoint v))%nat)
    by (destruct Hdp; lia).
  assert (Hfits' : (length (rpeak v) <= length (timestamp v))%nat) by lia.
  pose proof (func_baseline_sorted (datapoint v) Hne) as Hb.
  pose proof (func_avg_amp_spec (datapoint v) (rpeak v)
                (median_sorted (sort (datapoint v))) Hfits) as Ha.
  assert (Hr : func_bpm (timestamp v) (rpeak v) = Ok 0%R).
  { apply func_bpm_few_peaks; [assumption|].
    now rewrite (length_at_peaks _ _ Hfits'). }
  assert (Hu : exists u,
             func_uniformity (datapoint v) (rpeak v)
               (median_sorted (sort (datapoint v))) = Ok u).
  { rewrite (func_uniformity_spec _ _ _ Hfits).
    destruct (_ <? _)%nat; eauto. }
  destruct Hu as [u Hu].
  do 3 eexists. split.
  - unfold run, main, io_bind, cout, emit. fold v.
    rewrite (analyse_clean clean_ecg v _ _ _ _ _ Hclean Hb Ha Hr Hu).
    reflexivity.
  - unfold clean_report, no_shock_line.
    rewrite no_shock_at_rate_0. simpl. tauto.
Qed.

End FewPeaks.

Lemma few_peaks_no_shock_witness :
  exists baseline avg_amp uniformity,
    run (fun _ : list R => true)
        (Some (record_fields (D := R) 0 5 1 ++ record_fields 1 5 1))
    = Ok (banner ++ clean_report baseline avg_amp 0%R uniformity) /\
    In no_shock_line (clean_report baseline avg_amp 0%R uniformity).
Proof.
  apply (few_peaks_no_shock (fun _ : list R => true)
           (record_fields (D := R) 0 5 1 ++ record_fields 1 5 1)).
  - reflexivity.
  - discriminate.
  - simpl. lia.
Defined.

(* ================================================================== *)
(** * No flag at all, in every arithmetic *)

Section NoFlag.

Context {D : Type} `{Double D}.

Lemma for_loop_unchanged {S} (body : Z -> S -> result S) (n : nat)
  (lo : Z) (s : S) :
  (forall k, (k < n)%nat -> body (lo + Z.of_nat k) s = Ok s) ->
  for_loop lo n body s = Ok s.
Proof.
  intros Hbody.
  destruct (for_loop_inv (fun _ s' => s' = s) body n lo s) as (s' & E & ->).
  - reflexivity.
  - intros k s0 Hk ->. eauto.
  - exact E.
Qed.

Lemma vget_no_flag (rpeak : list Z) (k : nat) :
  Forall (fun r => r <> 1) rpeak -> (k < length rpeak)%nat ->
  exists r, vget rpeak (0 + Z.of_nat k) = Ok r /\ (r =? 1) = false.
Proof.
  intros Hno Hk.
  destruct (nth_error_lt rpeak k Hk) as [r Er].
  exists r. rewrite Z.add_0_l. split; [now apply vget_nth_error|].
  rewrite Forall_forall in Hno.
  apply Z.eqb_neq, Hno. eapply nth_error_In; eassumption.
Qed.

(** X15. When no flag is 1, no estimator reads its first vector:
    [func_avg_amp] and [func_uniformity] return 0 for vectors of any
    length, the empty one included, in every arithmetic of [double]; so
    does [func_bpm] wherever 0 < 2 holds. *)
Theorem estimators_without_flag (v : list D) (rpeak : list Z) (baseline : D) :
  Forall (fun r => r <> 1) rpeak ->
  func_avg_amp v rpeak baseline = Ok d0 /\
  func_uniformity v rpeak baseline = Ok d0 /\
  (dltb d0 (of_int 2) = true -> func_bpm v rpeak = Ok d0).
Proof.
  intros Hno. split; [|split].
  - unfold func_avg_amp, avg_amp_loop, for_range, vsize.
    rewrite Z.sub_0_r, Nat2Z.id, for_loop_unchanged; [reflexivity|].
    intros k Hk. unfold avg_amp_body.
    destruct (vget_no_flag rpeak k Hno Hk) as (r & -> & Hr).
    simpl. now rewrite Hr.
  - unfold func_uniformity, unif_loop, for_range, vsize.
    rewrite Z.sub_0_r, Nat2Z.id, for_loop_unchanged; [reflexivity|].
    intros k Hk. unfold unif_body.
    destruct (vget_no_flag rpeak k Hno Hk) as (r & -> & Hr).
    simpl. now rewrite Hr.
  - intros Hlt. unfold func_bpm, bpm_loop, for_range, vsize.
    rewrite Z.sub_0_r, Nat2Z.id, for_loop_unchanged.
    + simpl. now rewrite Hlt.
    + intros k Hk. unfold bpm_body.
      destruct (vget_no_flag rpeak k Hno Hk) as (r & -> & Hr).
      simpl. now rewrite Hr.
Qed.

End NoFlag.

Lemma estimators_without_flag_witness :
  func_avg_amp (@nil PrimFloat.float) [0; 0; 2] (float_of_Z 7) = Ok d0 /\
  func_uniformity (@nil PrimFloat.float) [0; 0; 2] (float_of_Z 7) = Ok d0 /\
  func_bpm (@nil PrimFloat.float) [0; 0; 2] = Ok d0.
Proof.
  destruct (estimators_without_flag (@nil PrimFloat.float) [0; 0; 2]
              (float_of_Z 7)) as (Ha & Hu & Hr).
  - repeat constructor; discriminate.
  - split; [exact Ha|]. split; [exact Hu|]. apply Hr. reflexivity.
Defined.

(* ================================================================== *)
(** * What the estimators return in every arithmetic *)

Section AnyArithmetic.

Context {D : Type} `{Double D}.

Lemma dsum_snoc (l : list D) (x : D) : dsum (l ++ [x]) = dadd (dsum l) x.
Proof. unfold dsum. now rewrite fold_left_app. Qed.

(** The loop of [func_avg_amp]: the deviations at the flagged indices,
    added from 0.0 in index order, and their number. *)
Lemma avg_amp_loop_sum (datapoint : list D) (rpeak : list Z) (baseline : D) :
  (length rpeak <= length datapoint)%nat ->
  avg_amp_loop datapoint rpeak baseline
  = Ok {| aa_total :=
            dsum (map (fun y => dabs (dsub y baseline))
                      (at_peaks datapoint rpeak));
          aa_rpeak1 := Z.of_nat (length (at_peaks datapoint rpeak)) |}.
Proof.
  intros Hfits.
  unfold avg_amp_loop, for_range, vsize. rewrite Z.sub_0_r, Nat2Z.id.
  destruct (for_loop_inv
    (fun k s =>
       s = {| aa_total :=
                dsum (map (fun y => dabs (dsub y baseline))
                          (at_peaks (firstn k datapoint) (firstn k rpeak)));
              aa_rpeak1 :=
                Z.of_nat (length (at_peaks (firstn k datapoint)
                                           (firstn k rpeak))) |})
    (avg_amp_body datapoint rpeak baseline) (length rpeak) 0
    {| aa_total := d0; aa_rpeak1 := 0 |}) as (s' & E & ->).
  - reflexivity.
  - intros k s Hk ->.
    destruct (nth_error_lt rpeak k Hk) as [r Er].
    destruct (nth_error_lt datapoint k) as [y Ey]; [lia|].
    unfold avg_amp_body. rewrite Z.add_0_l, (vget_nth_error _ _ _ Er).
    cbv beta iota delta [bind].
    rewrite (firstn_snoc _ _ _ Er), (firstn_snoc _ _ _ Ey), at_peaks_snoc
      by now apply firstn_prefix_lengths.
    destruct (r =? 1).
    + rewrite (vget_nth_error _ _ _ Ey).
      eexists; split; [reflexivity|].
      rewrite map_app, length_app. cbn [map length aa_total aa_rpeak1].
      rewrite dsum_snoc. f_equal. lia.
    + rewrite app_nil_r. eauto.
  - rewrite E, firstn_all, at_peaks_firstn. reflexivity.
Qed.

Lemma func_avg_amp_sum (datapoint : list D) (rpeak : list Z) (baseline : D) :
  (length rpeak <= length datapoint)%nat ->
  func_avg_amp datapoint rpeak baseline
  = match peak_indices rpeak with
    | [] => Ok d0
    | _ :: _ =>
      div (dsum (map (fun i => dabs (dsub (nth i datapoint d0) baseline))
                     (peak_indices rpeak)))
          (of_int (Z.of_nat (length (peak_indices rpeak))))
    end.
Proof.
  intros Hfits. unfold func_avg_amp.
  rewrite (avg_amp_loop_sum _ _ _ Hfits).
  cbv beta iota delta [bind]. cbn [aa_rpeak1 aa_total].
  rewrite (at_peaks_peak_indices datapoint rpeak d0 Hfits).
  rewrite map_map, length_map.
  destruct (peak_indices rpeak) as [|i l]; reflexivity.
Qed.



(** [func_baseline]: the middle of the sorted vector. *)
Lemma func_baseline_middle (datapoint : list D) :
  datapoint <> [] -> func_baseline datapoint = middle (sort datapoint).
Proof.
  intros Hne. unfold func_baseline, middle, vsize.
  set (s := sort datapoint).
  assert (Hlen : length s <> O).
  { unfold s. rewrite <- (Permutation_length (sort_perm datapoint)).
    now destruct datapoint. }
  rewrite odd_mod2.
  change (Z.of_nat (length s) / 2) with (Z.of_nat (length s) / Z.of_nat 2).
  rewrite <- Nat2Z.inj_div.
  destruct (Nat.odd (length s)) eqn:Hodd.
  - apply vget_nth_d0. apply Nat.div_lt; lia.
  - assert (Hge : (2 <= length s)%nat).
    { destruct (length s) as [|[|n]]; [congruence|discriminate|lia]. }
    assert (Hhalf : (1 <= length s / 2)%nat)
      by (apply Nat.div_le_lower_bound; lia).
    replace (Z.of_nat (length s / 2) - 1)
      with (Z.of_nat (length s / 2 - 1)) by lia.
    assert (Hlt : (length s / 2 < length s)%nat) by (apply Nat.div_lt; lia).
    rewrite !vget_nth_d0 by lia.
    reflexivity.
Qed.

(** ** Sorting values that are ordered *)

Variable dom : list D.

Hypothesis dom_ordered : ordered_on dom.

Lemma insert_in (x : D) (l : list D) :
  In x dom -> incl l dom -> incl (insert x l) dom.
Proof.
  intros Hx Hl y Hy.
  apply (Permutation_in _ (Permutation_sym (insert_perm x l))) in Hy.
  destruct Hy as [<-|Hy]; [assumption|now apply Hl].
Qed.

Lemma sort_in (l : list D) : incl l dom -> incl (sort l) dom.
Proof.
  intros Hl y Hy. apply Hl.
  now apply (Permutation_in _ (Permutation_sym (sort_perm l))).
Qed.

Lemma insert_ordered (x : D) (l : list D) :
  In x dom -> incl l dom ->
  StronglySorted dle l -> StronglySorted dle (insert x l).
Proof.
  destruct dom_ordered as (Hnot & Hlt & Htrans).
  intros Hx Hl Hs; induction Hs as [|y l Hs IH Hy]; simpl.
  - repeat constructor.
  - assert (Hyd : In y dom) by (apply Hl; now left).
    assert (Hld : incl l dom) by (intros z Hz; apply Hl; now right).
    destruct (dltb y x) eqn:E.
    + constructor; [now apply IH|].
      apply (Permutation_Forall (insert_perm x l)).
      constructor; [now apply Hlt|assumption].
    + assert (Hxy : dle x y) by now apply Hnot.
      constructor; [now constructor|].
      constructor; [assumption|].
      rewrite Forall_forall in Hy |- *. intros z Hz.
      apply (Htrans x y z); auto.
Qed.

Lemma sort_ordered (l : list D) :
  incl l dom -> StronglySorted dle (sort l).
Proof.
  induction l as [|x l IH]; intros Hl; simpl; [constructor|].
  apply insert_ordered.
  - apply Hl. now left.
  - apply sort_in. intros z Hz. apply Hl. now right.
  - apply IH. intros z Hz. apply Hl. now right.
Qed.

Hypothesis dom_distinct : distinct_on dom.

Lemma ordered_perm_unique (s1 s2 : list D) :
  incl s1 dom -> Permutation s1 s2 ->
  StronglySorted dle s1 -> StronglySorted dle s2 -> s1 = s2.
Proof.
  revert s2; induction s1 as [|a s1 IH]; intros s2 Hd Hp H1 H2.
  - apply Permutation_nil in Hp. now subst.
  - destruct s2 as [|b s2].
    { apply Permutation_sym, Permutation_nil in Hp. discriminate. }
    inversion H1 as [|? ? H1' Ha]; subst.
    inversion H2 as [|? ? H2' Hb]; subst.
    assert (Hab : a = b).
    { assert (In a (b :: s2)) as [->|Hin2]
        by (apply (Permutation_in _ Hp); now left); [reflexivity|].
      assert (In b (a :: s1)) as [->|Hin1]
        by (apply (Permutation_in _ (Permutation_sym Hp)); now left);
        [reflexivity|].
      rewrite Forall_forall in Ha, Hb.
      apply dom_distinct.
      - apply Hd. now left.
      - apply Hd. now right.
      - now apply Ha.
      - now apply Hb. }
    subst b. f_equal.
    apply IH; [|now apply Permutation_cons_inv in Hp|assumption|assumption].
    intros z Hz. apply Hd. now right.
Qed.

End AnyArithmetic.

(** ** Exact arithmetic *)

Lemma dsum_R (l : list R) : dsum l = Rsum l.
Proof.
  unfold dsum, d0; cbn [dadd of_int R_Double].
  rewrite <- (map_id l) at 1.
  rewrite (fold_left_Rplus (fun x => x) (map (fun x => x) l)), !map_id. lra.
Qed.

Lemma div_dsum_mean (l : list R) :
  l <> [] -> div (dsum l) (of_int (Z.of_nat (length l))) = Ok (mean l).
Proof.
  intros Hne. cbn [of_int R_Double].
  rewrite div_R by (apply IZR_of_nat_neq_0; now destruct l).
  unfold mean. now rewrite dsum_R, INR_IZR_INZ.
Qed.

Lemma middle_R (s : list R) : s <> [] -> middle s = Ok (median_sorted s).
Proof.
  intros Hne. unfold middle, median_sorted. cbv zeta.
  destruct (Nat.odd (length s)); [reflexivity|].
  apply div_R. simpl. lra.
Qed.

Lemma ordered_on_R (l : list R) : ordered_on l /\ distinct_on l.
Proof.
  unfold ordered_on, distinct_on, dle; cbn [dltb dleb R_Double].
  repeat split.
  - intros x y _ _ E. apply Rleb_true.
    destruct (Rle_dec x y); [assumption|].
    rewrite Rltb_true in E by lra. discriminate.
  - intros x y _ _ E. apply Rltb_iff in E. apply Rleb_true. lra.
  - intros x y z _ _ _ Hxy Hyz. apply Rleb_iff in Hxy, Hyz.
    apply Rleb_true. lra.
  - intros x y _ _ Hxy Hyx. apply Rleb_iff in Hxy, Hyx. lra.
Qed.

Lemma peak_indices_no_flag (rpeak : list Z) :
  Forall (fun r => r <> 1) rpeak -> peak_indices rpeak = [].
Proof.
  unfold peak_indices. generalize O.
  intros i Hno; revert i.
  induction Hno as [|r rpeak Hr _ IH]; intros i; simpl; [reflexivity|].
  destruct (Z.eqb_spec r 1); [contradiction|apply IH].
Qed.

(** ** [func_avg_amp] *)

(** C6, as amended. On vectors of the same length, in every arithmetic,
    [func_avg_amp] returns total/count, where total is the sum, taken from
    0.0 in index order, of |datapoint[i] - baseline| over the indices i
    with rpeak[i] = 1, each once, and count is their number; when no flag
    is 1 it returns 0 and divides nothing. In exact arithmetic total/count
    is the mean of the deviations. *)
Theorem func_avg_amp_sum_over_count :
  (forall (D : Type) (HD : Double D) (datapoint : list D) (rpeak : list Z)
          (baseline : D),
     length datapoint = length rpeak ->
     (peak_indices rpeak <> [] ->
      func_avg_amp datapoint rpeak baseline
      = div (dsum (map (fun i => dabs (dsub (nth i datapoint d0) baseline))
                       (peak_indices rpeak)))
            (of_int (Z.of_nat (length (peak_indices rpeak))))) /\
     (Forall (fun r => r <> 1) rpeak ->
      func_avg_amp datapoint rpeak baseline = Ok d0)) /\
  (forall l : list R,
     l <> [] -> div (dsum l) (of_int (Z.of_nat (length l))) = Ok (mean l)) /\
  (forall (rpeak : list Z) (i : nat),
     In i (peak_indices rpeak) <-> nth_error rpeak i = Some 1) /\
  (forall rpeak : list Z, StronglySorted lt (peak_indices rpeak)).
Proof.
  split; [|split; [|split]].
  - intros D HD datapoint rpeak baseline Hlen.
    assert (Hfits : (length rpeak <= length datapoint)%nat) by lia.
    pose proof (func_avg_amp_sum datapoint rpeak baseline Hfits) as E.
    split.
    + intros Hne. rewrite E.
      destruct (peak_indices rpeak); [contradiction|reflexivity].
    + intros Hno. rewrite E, (peak_indices_no_flag _ Hno). reflexivity.
  - apply div_dsum_mean.
  - apply peak_indices_In.
  - apply peak_indices_increasing.
Qed.

Lemma func_avg_amp_sum_over_count_witness :
  func_avg_amp (repeat float_tenth 6) (repeat 1 6) (float_of_Z 0)
  = div (dsum (map (fun i => dabs (dsub (nth i (repeat float_tenth 6) d0)
                                        (float_of_Z 0)))
                   (peak_indices (repeat 1 6))))
        (of_int (Z.of_nat (length (peak_indices (repeat 1 6))))).
Proof.
  destruct func_avg_amp_sum_over_count as [Hany _].
  destruct (Hany PrimFloat.float float_Double (repeat float_tenth 6)
              (repeat 1 6) (float_of_Z 0)) as [Hsum _]; [reflexivity|].
  apply Hsum. discriminate.
Defined.

(** C6 as stated fails on binary64: six flagged amplitudes 0.1 over the
    baseline 0. Every deviation is the double 0.1, and the mean of six
    equal numbers is that number, but the sum of the six is rounded and
    [func_avg_amp] returns a double below 0.1. *)
Lemma func_avg_amp_rounds :
  Forall (fun y => dabs (dsub y (float_of_Z 0)) = float_tenth)
         (repeat float_tenth 6) /\
  (forall x : R, mean (repeat x 6) = x) /\
  exists avg_amp,
    func_avg_amp (repeat float_tenth 6) (repeat 1 6) (float_of_Z 0)
    = Ok avg_amp /\
    dltb avg_amp float_tenth = true.
Proof.
  split; [|split].
  - repeat constructor.
  - intros x. unfold mean, Rsum; simpl. lra.
  - eexists. split; [vm_compute; reflexivity|]. reflexivity.
Qed.

(** ** [func_uniformity] *)




(** ** [func_baseline] *)

Lemma ordered_on_perm {D} `{Double D} (l l' : list D) :
  Permutation l l' -> ordered_on l -> ordered_on l'.
Proof.
  intros Hp (Hnot & Hlt & Htrans).
  assert (Hin : forall x, In x l' -> In x l)
    by (intros x; apply Permutation_in; now apply Permutation_sym).
  repeat split.
  - intros x y Hx Hy. apply Hnot; auto.
  - intros x y Hx Hy. apply Hlt; auto.
  - intros x y z Hx Hy Hz. apply Htrans; auto.
Qed.

(** C5, as amended. For a non-empty vector, in every arithmetic,
    [func_baseline] takes the middle of the sorted amplitudes: the middle
    element when their number is odd, and (a + b)/2.0 for the two middle
    elements a, b when it is even. The sorted vector is a reordering of
    the input, ascending when the amplitudes are ordered (no NaN). When
    moreover no two different amplitudes compare equal, it is the only
    ascending reordering, and the result is the same for every reordering
    of the input. For a single amplitude the result is that amplitude. In
    exact arithmetic the hypotheses hold and (a + b)/2.0 is the average of
    a and b, so the result is the median. *)
Theorem func_baseline_middle_of_sorted :
  (forall (D : Type) (HD : Double D) (datapoint : list D),
     datapoint <> [] ->
     Permutation datapoint (sort datapoint) /\
     func_baseline datapoint = middle (sort datapoint) /\
     (ordered_on datapoint -> StronglySorted dle (sort datapoint)) /\
     (ordered_on datapoint -> distinct_on datapoint ->
      (forall s, Permutation datapoint s -> StronglySorted dle s ->
                 sort datapoint = s) /\
      (forall datapoint', Permutation datapoint datapoint' ->
                          func_baseline datapoint' = func_baseline datapoint))
     /\
     (forall x, datapoint = [x] -> func_baseline datapoint = Ok x)) /\
  (forall s : list R, s <> [] -> middle s = Ok (median_sorted s)) /\
  (forall l : list R, ordered_on l /\ distinct_on l).
Proof.
  split; [|split; [apply middle_R|apply ordered_on_R]].
  intros D HD datapoint Hne.
  split; [apply sort_perm|].
  split; [now apply func_baseline_middle|].
  split; [intros Hord; apply (sort_ordered datapoint Hord), incl_refl|].
  split.
  - intros Hord Hdis. split.
    + intros s Hp Hs.
      apply (ordered_perm_unique datapoint Hdis).
      * apply sort_in, incl_refl.
      * now rewrite <- sort_perm.
      * apply (sort_ordered datapoint Hord), incl_refl.
      * assumption.
    + intros datapoint' Hp.
      assert (Hne' : datapoint' <> []).
      { intros ->. apply Permutation_sym, Permutation_nil in Hp.
        contradiction. }
      assert (Hin : incl datapoint' datapoint).
      { intros x. apply Permutation_in. now apply Permutation_sym. }
      rewrite !func_baseline_middle by assumption. f_equal.
      apply (ordered_perm_unique datapoint Hdis).
      * now apply sort_in.
      * now rewrite <- !sort_perm, Hp.
      * now apply (sort_ordered datapoint Hord).
      * apply (sort_ordered datapoint Hord), incl_refl.
  - intros x ->. reflexivity.
Qed.

Lemma float_ordered_312 :
  ordered_on (map float_of_Z [3; 1; 2]) /\
  distinct_on (map float_of_Z [3; 1; 2]).
Proof.
  unfold ordered_on, distinct_on, dle. repeat split.
  - intros x y [<-|[<-|[<-|[]]]] [<-|[<-|[<-|[]]]]; vm_compute;
      intros E; first [reflexivity|discriminate E].
  - intros x y [<-|[<-|[<-|[]]]] [<-|[<-|[<-|[]]]]; vm_compute;
      intros E; first [reflexivity|discriminate E].
  - intros x y z [<-|[<-|[<-|[]]]] [<-|[<-|[<-|[]]]] [<-|[<-|[<-|[]]]];
      vm_compute; intros E1 E2;
      first [reflexivity|discriminate E1|discriminate E2].
  - intros x y [<-|[<-|[<-|[]]]] [<-|[<-|[<-|[]]]]; vm_compute;
      intros E1 E2; first [reflexivity|discriminate E1|discriminate E2].
Qed.

Lemma func_baseline_middle_of_sorted_witness :
  func_baseline (map float_of_Z [3; 1; 2])
  = middle (sort (map float_of_Z [3; 1; 2])) /\
  StronglySorted dle (sort (map float_of_Z [3; 1; 2])) /\
  func_baseline (map float_of_Z [2; 3; 1])
  = func_baseline (map float_of_Z [3; 1; 2]).
Proof.
  destruct func_baseline_middle_of_sorted as [Hany _].
  destruct (Hany PrimFloat.float float_Double (map float_of_Z [3; 1; 2]))
    as (_ & Hmid & Hsorted & Hunique & _); [discriminate|].
  destruct float_ordered_312 as [Hord Hdis].
  split; [exact Hmid|]. split; [exact (Hsorted Hord)|].
  apply (proj2 (Hunique Hord Hdis)). simpl.
  eapply perm_trans; [apply perm_skip, perm_swap|apply perm_swap].
Defined.

(** C5 as stated fails on binary64: for the two amplitudes 2^1023 and
    2^1023, whose median is 2^1023, the sum overflows and [func_baseline]
    returns infinity. *)
Lemma func_baseline_overflows :
  (forall x : R, median_sorted [x; x] = x) /\
  dltb float_huge PrimFloat.infinity = true /\
  func_baseline [float_huge; float_huge] = Ok PrimFloat.infinity.
Proof.
  split; [|split].
  - intros x. unfold median_sorted; simpl. lra.
  - reflexivity.
  - vm_compute. reflexivity.
Qed.

(* ================================================================== *)
(** * The baseline splits the data *)

Section Splits.

Context {D : Type} `{Double D}.

Variable dom : list D.

Hypothesis dom_ordered : ordered_on dom.

Lemma dle_refl_on (x : D) : In x dom -> dle x x.
Proof.
  destruct dom_ordered as (Hnot & Hlt & _). intros Hx.
  destruct (dltb x x) eqn:E; [now apply Hlt|now apply Hnot].
Qed.

Lemma ordered_nth_le (s : list D) :
  incl s dom -> StronglySorted dle s ->
  forall i j, (i <= j)%nat -> (j < length s)%nat ->
    dle (nth i s d0) (nth j s d0).
Proof.
  intros Hd Hs; induction Hs as [|x s Hs IH Hx]; intros i j Hij Hj.
  - simpl in Hj. lia.
  - assert (Hsd : incl s dom) by (intros z Hz; apply Hd; now right).
    destruct j as [|j].
    + replace i with O by lia. simpl. apply dle_refl_on, Hd. now left.
    + destruct i as [|i]; simpl in *.
      * rewrite Forall_forall in Hx. apply Hx, nth_In. lia.
      * apply IH; [assumption|lia|lia].
Qed.

Lemma middle_splits (s : list D) (m : D) :
  incl (m :: s) dom -> StronglySorted dle s -> midpoints_between s ->
  middle s = Ok m ->
  (length s <= 2 * length (filter (fun y => dleb y m) s))%nat /\
  (length s <= 2 * length (filter (fun y => dleb m y) s))%nat.
Proof.
  intros Hd Hs Hmid Em.
  destruct dom_ordered as (_ & _ & Htrans).
  assert (Hmd : In m dom) by (apply Hd; now left).
  assert (Hsd : incl s dom) by (intros z Hz; apply Hd; now right).
  assert (Hnth : forall i, (i < length s)%nat -> In (nth i s d0) dom)
    by (intros i Hi; apply Hsd, nth_In, Hi).
  pose proof (Nat.div_mod_eq (length s) 2) as Hdiv.
  rewrite odd_mod2_nat in Hdiv.
  unfold middle in Em. cbv zeta in Em.
  set (k := (length s / 2)%nat) in *.
  destruct (Nat.odd (length s)).
  - injection Em as <-. split.
    + assert (k + 1 <= length (filter (fun y => dleb y (nth k s d0)) s))%nat;
        [|lia].
      apply (count_prefix _ d0); [lia|].
      intros i Hi. apply (ordered_nth_le s Hsd Hs); lia.
    + assert (length s - k
              <= length (filter (fun y => dleb (nth k s d0) y) s))%nat; [|lia].
      apply (count_suffix _ d0).
      intros i Hi. apply (ordered_nth_le s Hsd Hs); lia.
  - unfold div in Em.
    destruct (deqb (of_int 2) d0); [discriminate|]. injection Em as Em.
    destruct (Nat.eq_dec (length s) 0) as [Hz|Hnz]; [split; lia|].
    assert (Hk : (1 <= k)%nat) by lia.
    assert (Hab : dle (nth (k - 1) s d0) (nth k s d0))
      by (apply (ordered_nth_le s Hsd Hs); lia).
    destruct (Hmid (nth (k - 1) s d0) (nth k s d0)) as [Ham Hmb];
      [apply nth_In; lia|apply nth_In; lia|assumption|].
    rewrite Em in Ham, Hmb.
    split.
    + assert (k <= length (filter (fun y => dleb y m) s))%nat; [|lia].
      apply (count_prefix _ d0); [lia|].
      intros i Hi.
      apply (Htrans (nth i s d0) (nth (k - 1) s d0) m);
        [apply Hnth; lia|apply Hnth; lia|assumption| |assumption].
      apply (ordered_nth_le s Hsd Hs); lia.
    + assert (length s - k <= length (filter (fun y => dleb m y) s))%nat;
        [|lia].
      apply (count_suffix _ d0).
      intros i Hi.
      apply (Htrans m (nth k s d0) (nth i s d0));
        [assumption|apply Hnth; lia|apply Hnth; lia|assumption|].
      apply (ordered_nth_le s Hsd Hs); lia.
Qed.

End Splits.

Lemma midpoints_between_perm {D} `{Double D} (l l' : list D) :
  Permutation l l' -> midpoints_between l -> midpoints_between l'.
Proof.
  intros Hp Hmid a b Ha Hb.
  apply Hmid; eapply Permutation_in; try eassumption;
    now apply Permutation_sym.
Qed.

(** X6. Whenever [func_baseline] returns a value, that value and the
    amplitudes are ordered (no NaN), and the double midpoint of two
    amplitudes lies between them (no overflow), the baseline splits the
    data: at least half of the amplitudes are at or below it and at least
    half are at or above it. *)
Theorem func_baseline_splits {D} `{Double D} (datapoint : list D)
  (baseline : D) :
  func_baseline datapoint = Ok baseline ->
  ordered_on (baseline :: datapoint) ->
  midpoints_between datapoint ->
  (length datapoint
   <= 2 * length (filter (fun y => dleb y baseline) datapoint))%nat /\
  (length datapoint
   <= 2 * length (filter (fun y => dleb baseline y) datapoint))%nat.
Proof.
  intros Eb Hord Hmid.
  assert (Hne : datapoint <> []) by (intros ->; discriminate Eb).
  rewrite (func_baseline_middle datapoint Hne) in Eb.
  pose proof (sort_perm datapoint) as Hp.
  rewrite !(filter_length_perm _ _ _ Hp), (Permutation_length Hp).
  apply (middle_splits (baseline :: datapoint) Hord).
  - intros z [<-|Hz]; [now left|right].
    now apply (Permutation_in _ (Permutation_sym Hp)).
  - apply (sort_ordered (baseline :: datapoint) Hord).
    intros z Hz. now right.
  - now apply (midpoints_between_perm datapoint).
  - assumption.
Qed.

Lemma float_ordered_3124 :
  ordered_on (ddiv (float_of_Z 5) (float_of_Z 2) :: map float_of_Z [3; 1; 2; 4])
  /\ midpoints_between (map float_of_Z [3; 1; 2; 4]).
Proof.
  unfold ordered_on, midpoints_between, dle.
  split; [split; [|split]|].
  - intros x y [<-|[<-|[<-|[<-|[<-|[]]]]]] [<-|[<-|[<-|[<-|[<-|[]]]]]];
      vm_compute; intros E; first [reflexivity|discriminate E].
  - intros x y [<-|[<-|[<-|[<-|[<-|[]]]]]] [<-|[<-|[<-|[<-|[<-|[]]]]]];
      vm_compute; intros E; first [reflexivity|discriminate E].
  - intros x y z [<-|[<-|[<-|[<-|[<-|[]]]]]] [<-|[<-|[<-|[<-|[<-|[]]]]]]
      [<-|[<-|[<-|[<-|[<-|[]]]]]];
      vm_compute; intros E1 E2;
      first [reflexivity|discriminate E1|discriminate E2].
  - intros a b [<-|[<-|[<-|[<-|[]]]]] [<-|[<-|[<-|[<-|[]]]]];
      vm_compute; intros E; first [discriminate E|split; reflexivity].
Qed.

Lemma func_baseline_splits_witness :
  (4 <= 2 * length (filter (fun y => dleb y (ddiv (float_of_Z 5) (float_of_Z 2)))
                           (map float_of_Z [3; 1; 2; 4]%Z)))%nat /\
  (4 <= 2 * length (filter (fun y => dleb (ddiv (float_of_Z 5) (float_of_Z 2)) y)
                           (map float_of_Z [3; 1; 2; 4]%Z)))%nat.
Proof.
  destruct float_ordered_3124 as [Hord Hmid].
  apply (func_baseline_splits (map float_of_Z [3; 1; 2; 4])
           (ddiv (float_of_Z 5) (float_of_Z 2))).
  - vm_compute. reflexivity.
  - exact Hord.
  - exact Hmid.
Defined.
